(** * stack_pool: a pool of stacks stored in one std::vector

    Shallow embedding of [src/exam/stack_pool.hpp].  Handles are values of
    the unsigned type [std::size_t]; the node with handle [x] lives at
    vector index [x - 1], computed in unsigned 64-bit arithmetic.  Member
    functions become computations in a state-and-exception monad over the
    pool; an access of the vector past its size has no defined behaviour
    and is a separate outcome. *)

From Stdlib Require Import NArith ZArith List Bool Lia Permutation.
Import ListNotations.
Local Open Scope N_scope.

(** ** Outcomes *)

(** The four exception structs of the header, and the two exceptions that
    [std::vector] itself throws when it has to grow. *)
Inductive exception : Type :=
| EmptyStackException
| NotStackHeadException
| NotEqualTypeException
| RangeCheckingException
| length_error
| bad_alloc.

(** What a call can do: return, leave by an exception, index the vector
    outside [0, size()) (undefined behaviour), or call [std::terminate]
    because an exception left a [noexcept] function. *)
Inductive outcome (A : Type) : Type :=
| Ok (a : A)
| Throw (e : exception)
| OutOfBounds
| Terminate.

Arguments Ok {A} a.
Arguments Throw {A} e.
Arguments OutOfBounds {A}.
Arguments Terminate {A}.

(** ** std::size_t *)

Definition SIZE_MAX : N := 2 ^ 64 - 1.
Definition PTRDIFF_MAX : N := 2 ^ 63 - 1.

(** Unsigned subtraction and increment modulo 2^64. *)
Definition size_t_sub (a b : N) : N :=
  if b <=? a then a - b else a + 2 ^ 64 - b.

Definition size_t_succ (a : N) : N := (a + 1) mod 2 ^ 64.

(** ** The template argument of [_push]

    [_push] is a template over [X] with a forwarding reference [X&& val];
    it compares the deduced [X] with [value_type].  A type built on [T] is
    represented by its const qualifier and its reference kind. *)
Inductive ref_kind : Type := no_ref | lvalue_ref | rvalue_ref.

Record cxx_type : Type := mk_type { is_const : bool; ref : ref_kind }.

Inductive value_category : Type := lvalue | xvalue | prvalue.

Definition ref_kind_eqb (a b : ref_kind) : bool :=
  match a, b with
  | no_ref, no_ref | lvalue_ref, lvalue_ref | rvalue_ref, rvalue_ref => true
  | _, _ => false
  end.

(** [std::is_same<A, B>::value] *)
Definition is_same (a b : cxx_type) : bool :=
  Bool.eqb (is_const a) (is_const b) && ref_kind_eqb (ref a) (ref b).

(** [using value_type = T] *)
Definition value_type : cxx_type := mk_type false no_ref.

(** Deduction of [X] for a parameter [X&&] from an argument expression of
    type (possibly const) [T]: an lvalue gives a reference type, an
    rvalue gives the plain type. *)
Definition deduce_forwarding (const_arg : bool) (c : value_category) : cxx_type :=
  match c with
  | lvalue => mk_type const_arg lvalue_ref
  | xvalue | prvalue => mk_type const_arg no_ref
  end.

(** ** Indexing a list by an unsigned integer *)

Section ListIndex.
Context {A : Type}.

Fixpoint list_at (l : list A) (i : N) : option A :=
  match l with
  | [] => None
  | a :: l' => if i =? 0 then Some a else list_at l' (N.pred i)
  end.

Fixpoint list_set (l : list A) (i : N) (a : A) : list A :=
  match l with
  | [] => []
  | b :: l' => if i =? 0 then a :: l' else b :: list_set l' (N.pred i) a
  end.
End ListIndex.

(** ** node_t, the vector and the pool *)

Record node_t (T : Type) : Type := mk_node {
  node_value : T;
  node_next : N;
  node_isHead : bool
}.

Arguments mk_node {T} _ _ _.
Arguments node_value {T} _.
Arguments node_next {T} _.
Arguments node_isHead {T} _.

(** [std::vector<node_t>]: the elements, and the number of reserved
    slots after them, so that [capacity() = size() + spare]. *)
Record vector (T : Type) : Type := mk_vector {
  elems : list (node_t T);
  spare : N
}.

Arguments mk_vector {T} _ _.
Arguments elems {T} _.
Arguments spare {T} _.

Record stack_pool (T : Type) : Type := mk_pool {
  pool : vector T;
  free_nodes : N
}.

Arguments mk_pool {T} _ _.
Arguments pool {T} _.
Arguments free_nodes {T} _.

(** ** Sample pools of [stack_pool<int>]

    The growth policy of libstdc++ doubles a full vector (and gives
    capacity 1 to an empty one), which leaves [n - 1] unused slots after
    the append to a full vector of [n] elements. *)
Definition libstdcxx_grow (n : N) : option N := Some (n - 1).

(** [stack_pool<int> pool{5}], as in the example of the header. *)
Definition pool_5 : stack_pool Z := mk_pool (mk_vector [] 5) 0.

(** [stack_pool<int> pool(1000)], as in the driver. *)
Definition pool_1000 : stack_pool Z := mk_pool (mk_vector [] 1000) 0.

(** One stack with the single node 1. *)
Definition one_node : stack_pool Z :=
  mk_pool (mk_vector [mk_node 10%Z 0 true] 4) 0.

(** The stack 2 -> 1 and nothing else. *)
Definition one_stack : stack_pool Z :=
  mk_pool (mk_vector [mk_node 10%Z 0 false; mk_node 20%Z 1 true] 3) 0.

(** The stacks 2 -> 1 and 4, and node 3 in the free list. *)
Definition two_stacks : stack_pool Z :=
  mk_pool (mk_vector [mk_node 10%Z 0 false; mk_node 20%Z 1 true;
                      mk_node (-1)%Z 0 false; mk_node 40%Z 0 true] 1) 3.

(** [two_stacks] after [push(30, 2)]: the stacks 3 -> 2 -> 1 and 4. *)
Definition two_stacks_pushed : stack_pool Z :=
  mk_pool (mk_vector [mk_node 10%Z 0 false; mk_node 20%Z 1 false;
                      mk_node 30%Z 2 true; mk_node 40%Z 0 true] 1) 0.

(** [two_stacks] after [pop(2)]: the stacks 1 and 4, free list 2 -> 3. *)
Definition two_stacks_popped : stack_pool Z :=
  mk_pool (mk_vector [mk_node 10%Z 0 true; mk_node (-1)%Z 3 false;
                      mk_node (-1)%Z 0 false; mk_node 40%Z 0 true] 1) 2.

(** [pool_5] after [push(7, 1)]: node 1 is its own successor. *)
Definition self_loop : stack_pool Z :=
  mk_pool (mk_vector [mk_node 7%Z 1 false] 4) 0.

(** An allocator that grants exactly what [reserve] asks for. *)
Definition exact_alloc (n : N) : option N := Some 0.

(** [sizeof(node_t)] of [stack_pool<int>] on an LP64 target: the [int]
    value padded to 8 bytes, the [std::size_t] next, and the [bool]
    isHead padded to 8 bytes. *)
Definition sizeof_int_node : N := 24.

Section StackPool.

(** [T] is the value type of the pool and [sizeof_node_t] the size in
    bytes of its [node_t]; [minus_one] is the [T] that the literal [-1]
    converts to (pop stores it as debug information).
    [grow n] is what the allocator does when a full vector of [n]
    elements has to grow: [None] when the allocation fails, [Some s]
    when the new storage leaves [s] unused slots after the append. *)
Context {T : Type}.
Variable sizeof_node_t : N.
Variable minus_one : T.
Variable grow : N -> option N.

Local Abbreviation node_t := (node_t T).
Local Abbreviation vector := (vector T).
Local Abbreviation stack_pool := (stack_pool T).

Definition vec_size (v : vector) : N := N.of_nat (List.length (elems v)).
Definition vec_capacity (v : vector) : N := vec_size v + spare v.

(** [max_size()] of [std::vector<node_t>]: the number of [node_t] that
    fit in [PTRDIFF_MAX] bytes (384307168202282325 for
    [stack_pool<int>]). *)
Definition max_size : N := PTRDIFF_MAX / sizeof_node_t.

(** [stack_pool()]; [stack_pool(n)] follows [reserve] below. *)
Definition stack_pool_default : stack_pool := mk_pool (mk_vector [] 0) 0.

(** ** The monad of member functions *)

Definition M (A : Type) : Type := stack_pool -> outcome (A * stack_pool).

Definition ret {A} (a : A) : M A := fun p => Ok (a, p).

Definition bind {A B} (c : M A) (k : A -> M B) : M B := fun p =>
  match c p with
  | Ok (a, p') => k a p'
  | Throw e => Throw e
  | OutOfBounds => OutOfBounds
  | Terminate => Terminate
  end.

Definition throw {A} (e : exception) : M A := fun _ => Throw e.

Notation "x <- c ;; k" := (bind c (fun x => k))
  (at level 61, c at next level, right associativity).
Notation "c ;;; k" := (bind c (fun _ => k))
  (at level 61, right associativity).

(** A call of a const member function that cannot fail. *)
Definition const_call {A} (f : stack_pool -> A) : M A := fun p => Ok (f p, p).

Definition get_free_nodes : M N := fun p => Ok (free_nodes p, p).
Definition set_free_nodes (x : N) : M unit := fun p =>
  Ok (tt, mk_pool (pool p) x).

(** ** Const member functions without failure *)

Definition end_ (p : stack_pool) : N := 0.
Definition new_stack (p : stack_pool) : N := end_ p.
Definition capacity (p : stack_pool) : N := vec_capacity (pool p).
Definition empty (p : stack_pool) (x : N) : bool := x =? end_ p.

(** ** node

    [node(x)] throws when [x > capacity()] and otherwise returns a
    reference to [pool[x - 1]].  The reference is then read
    ([node_load]) or assigned through ([node_store]). *)
Definition node_load (x : N) : M node_t := fun p =>
  if capacity p <? x then Throw RangeCheckingException
  else
    let i := size_t_sub x 1 in
    if i <? vec_size (pool p) then
      match list_at (elems (pool p)) i with
      | Some n => Ok (n, p)
      | None => OutOfBounds
      end
    else OutOfBounds.

Definition node_store (x : N) (f : node_t -> node_t) : M unit := fun p =>
  if capacity p <? x then Throw RangeCheckingException
  else
    let i := size_t_sub x 1 in
    if i <? vec_size (pool p) then
      match list_at (elems (pool p)) i with
      | Some n =>
          Ok (tt, mk_pool (mk_vector (list_set (elems (pool p)) i (f n))
                                     (spare (pool p)))
                          (free_nodes p))
      | None => OutOfBounds
      end
    else OutOfBounds.

(** ** value, next, isHead: reads and assignments through the reference *)

Definition value (x : N) : M T := n <- node_load x ;; ret (node_value n).
Definition next (x : N) : M N := n <- node_load x ;; ret (node_next n).
Definition isHead (x : N) : M bool := n <- node_load x ;; ret (node_isHead n).

Definition set_value (x : N) (v : T) : M unit :=
  node_store x (fun n => mk_node v (node_next n) (node_isHead n)).
Definition set_next (x : N) (y : N) : M unit :=
  node_store x (fun n => mk_node (node_value n) y (node_isHead n)).
Definition set_isHead (x : N) (b : bool) : M unit :=
  node_store x (fun n => mk_node (node_value n) (node_next n) b).

(** ** emplace_back

    Appends in place while reserved slots remain; otherwise the vector
    reallocates, which throws [length_error] at [max_size()] and
    [bad_alloc] when the allocator fails.  The new capacity never
    exceeds [max_size()]. *)
Definition emplace_back (n : node_t) : M unit := fun p =>
  let v := pool p in
  if 0 <? spare v then
    Ok (tt, mk_pool (mk_vector (elems v ++ [n]) (spare v - 1)) (free_nodes p))
  else if max_size <=? vec_size v then Throw length_error
  else
    match grow (vec_size v) with
    | None => Throw bad_alloc
    | Some s =>
        Ok (tt, mk_pool (mk_vector (elems v ++ [n])
                                   (N.min s (max_size - vec_size v - 1)))
                        (free_nodes p))
    end.

Definition pool_size : M N := const_call (fun p => vec_size (pool p)).

(** ** reserve

    [reserve(n)] forwards to [std::vector::reserve]: it throws
    [length_error] above [max_size()], does nothing when the capacity
    is [n] or more, and otherwise moves the elements to new storage
    for at least [n] elements.  [reserve_alloc n] is what the allocator
    does for such a request: [None] when it fails, [Some k] when the
    new storage has [k] slots more than asked for. *)
Definition reserve (reserve_alloc : N -> option N) (n : N) : M unit :=
  fun p =>
  let v := pool p in
  if max_size <? n then Throw length_error
  else if vec_capacity v <? n then
    match reserve_alloc n with
    | None => Throw bad_alloc
    | Some k =>
        Ok (tt, mk_pool (mk_vector (elems v)
                                   (N.min (n + k) max_size - vec_size v))
                        (free_nodes p))
    end
  else Ok (tt, p).

(** [explicit stack_pool(size_type n)]: the empty pool, then
    [reserve(n)]. *)
Definition stack_pool_n (reserve_alloc : N -> option N) (n : N)
  : outcome stack_pool :=
  match reserve reserve_alloc n stack_pool_default with
  | Ok (_, p) => Ok p
  | Throw e => Throw e
  | OutOfBounds => OutOfBounds
  | Terminate => Terminate
  end.

(** ** _push, push *)

Definition _push (X : cxx_type) (val : T) (head : N) : M N :=
  if negb (is_same X value_type) then throw NotEqualTypeException
  else
    fn <- get_free_nodes ;;
    e <- const_call (fun p => empty p fn) ;;
    if negb e then
      let t := fn in
      set_value fn val ;;;
      fn' <- get_free_nodes ;;
      nx <- next fn' ;;
      set_free_nodes nx ;;;
      set_next t head ;;;
      set_isHead head false ;;;
      set_isHead t true ;;;
      ret t
    else
      emplace_back (mk_node val head true) ;;;
      set_isHead head false ;;;
      pool_size.

(** [push(const T& val, head)] passes the lvalue [val] of type
    [const T]; [push(T&& val, head)] passes [std::move(val)]. *)
Definition push_lvalue (val : T) (head : N) : M N :=
  _push (deduce_forwarding true lvalue) val head.

Definition push_rvalue (val : T) (head : N) : M N :=
  _push (deduce_forwarding false xvalue) val head.

(** The loop of the driver, [s1 = pool.push(i, s1)] for each value in
    turn, with the overload given by [X]. *)
Fixpoint push_all (X : cxx_type) (vals : list T) (head : N) : M N :=
  match vals with
  | [] => ret head
  | v :: vals' => h <- _push X v head ;; push_all X vals' h
  end.

(** ** pop *)

Definition pop (x : N) : M N :=
  h <- isHead x ;;
  if negb h then throw NotStackHeadException
  else
    e <- const_call (fun p => empty p x) ;;
    if e then throw EmptyStackException
    else
      t <- next x ;;
      fn <- get_free_nodes ;;
      set_next x fn ;;;
      set_free_nodes x ;;;
      set_value x minus_one ;;;
      set_isHead t true ;;;
      set_isHead x false ;;;
      ret t.

(** ** free_stack

    The [while] loop, with a bound on the number of iterations; [None]
    means the bound was reached. *)
Fixpoint free_stack (fuel : nat) (x : N) (p : stack_pool)
  : option (outcome (N * stack_pool)) :=
  match fuel with
  | O => None
  | S fuel' =>
      if negb (x =? end_ p) then
        match pop x p with
        | Ok (x', p') => free_stack fuel' x' p'
        | Throw e => Some (Throw e)
        | OutOfBounds => Some OutOfBounds
        | Terminate => Some Terminate
        end
      else Some (Ok (x, p))
  end.

(** ** The iterator *)

Record _iterator : Type := mk_iterator { current : N }.

Definition begin_ (x : N) : _iterator := mk_iterator x.
Definition end_iterator (p : stack_pool) (x : N) : _iterator :=
  mk_iterator (end_ p).

Definition iterator_deref (it : _iterator) : M T := value (current it).
Definition iterator_incr (it : _iterator) : M _iterator :=
  c <- next (current it) ;; ret (mk_iterator c).
Definition iterator_eq (a b : _iterator) : bool := current a =? current b.
Definition iterator_neq (a b : _iterator) : bool := negb (iterator_eq a b).

(** An exception that reaches the boundary of a [noexcept] function. *)
Definition noexcept {A} (r : outcome A) : outcome A :=
  match r with
  | Throw _ => Terminate
  | _ => r
  end.

(** ** length and print_stack

    Both run the same [for] loop over the iterator; [print_stack]
    writes each value to the output stream, modelled by the list of
    values written. *)
Fixpoint length_loop (fuel : nat) (x : N) (it : _iterator) (l : N)
    (p : stack_pool) : option (outcome (N * stack_pool)) :=
  match fuel with
  | O => None
  | S fuel' =>
      if iterator_neq it (end_iterator p x) then
        match iterator_incr it p with
        | Ok (it', p') => length_loop fuel' x it' (size_t_succ l) p'
        | Throw e => Some (Throw e)
        | OutOfBounds => Some OutOfBounds
        | Terminate => Some Terminate
        end
      else Some (Ok (l, p))
  end.

Definition length (fuel : nat) (x : N) (p : stack_pool)
  : option (outcome (N * stack_pool)) :=
  option_map noexcept (length_loop fuel x (begin_ x) 0 p).

Fixpoint print_stack_loop (fuel : nat) (x : N) (it : _iterator)
    (out : list T) (p : stack_pool)
  : option (outcome (list T * stack_pool)) :=
  match fuel with
  | O => None
  | S fuel' =>
      if iterator_neq it (end_iterator p x) then
        match (v <- iterator_deref it ;; it' <- iterator_incr it ;;
               ret (v, it')) p with
        | Ok ((v, it'), p') => print_stack_loop fuel' x it' (out ++ [v]) p'
        | Throw e => Some (Throw e)
        | OutOfBounds => Some OutOfBounds
        | Terminate => Some Terminate
        end
      else Some (Ok (out, p))
  end.

Definition print_stack (fuel : nat) (x : N) (p : stack_pool)
  : option (outcome (list T * stack_pool)) :=
  option_map noexcept (print_stack_loop fuel x (begin_ x) [] p).

(** What a loop returned, when it ran to its end within the bound and
    returned. *)
Definition returned {A} (r : option (outcome (A * stack_pool))) : option A :=
  match r with
  | Some (Ok (a, _)) => Some a
  | _ => None
  end.

(** ** The logical view of the pool

    [slot p x] is the node that handle [x] denotes: handle [0] denotes
    none, handle [x > 0] the element at position [x - 1]. *)
Definition slot (p : stack_pool) (x : N) : option node_t :=
  if x =? 0 then None else list_at (elems (pool p)) (x - 1).

(** The pool after the node of handle [x] has been overwritten. *)
Definition store (p : stack_pool) (x : N) (n : node_t) : stack_pool :=
  mk_pool (mk_vector (list_set (elems (pool p)) (x - 1) n) (spare (pool p)))
          (free_nodes p).

(** [std::vector] keeps its capacity within [max_size()]. *)
Definition vec_ok (p : stack_pool) : Prop := capacity p <= max_size.

(** [chain p x l]: following [next] from handle [x] visits exactly the
    handles [l], all of them nodes of the pool, and then reaches the
    sentinel. *)
Inductive chain (p : stack_pool) : N -> list N -> Prop :=
| chain_end : chain p 0 []
| chain_link x n l :
    slot p x = Some n -> chain p (node_next n) l -> chain p x (x :: l).

(** The [isHead] flag of handle [x] is [b]. *)
Definition flag (p : stack_pool) (x : N) (b : bool) : Prop :=
  exists n, slot p x = Some n /\ node_isHead n = b.

(** The payloads along a list of handles. *)
Definition payload (p : stack_pool) (x : N) (v : T) : Prop :=
  exists n, slot p x = Some n /\ node_value n = v.

(** A live stack, given by the handles from its head to its last node:
    it is not empty, [next] links its handles in this order, its head
    is flagged and no other node of it is. *)
Definition live_stack (p : stack_pool) (s : list N) : Prop :=
  match s with
  | [] => False
  | h :: rest =>
      chain p h s /\ flag p h true /\ Forall (fun y => flag p y false) rest
  end.

(** The free list: the chain from [free_nodes], with no node flagged. *)
Definition free_list (p : stack_pool) (fl : list N) : Prop :=
  chain p (free_nodes p) fl /\ Forall (fun y => flag p y false) fl.

(** The head invariant of a pool whose live stacks are [stacks] and
    whose free list is [fl]; no node is shared. *)
Record pool_inv (p : stack_pool) (stacks : list (list N)) (fl : list N)
  : Prop := mk_pool_inv {
  inv_vec : vec_ok p;
  inv_stacks : Forall (live_stack p) stacks;
  inv_free : free_list p fl;
  inv_disjoint : NoDup (concat stacks ++ fl)
}.

(** ** Lists indexed by N *)

Lemma list_at_lt (l : list node_t) i a :
  list_at l i = Some a -> i < N.of_nat (List.length l).
Proof.
  revert i; induction l as [|b l IH]; intros i H; simpl in *; [discriminate|].
  destruct (N.eqb_spec i 0) as [Hi|Hi]; [lia|].
  apply IH in H. lia.
Qed.

Lemma list_at_some (l : list node_t) i :
  i < N.of_nat (List.length l) -> exists a, list_at l i = Some a.
Proof.
  revert i; induction l as [|b l IH]; intros i H; simpl in *; [lia|].
  destruct (N.eqb_spec i 0) as [Hi|Hi]; [eauto|].
  apply IH. lia.
Qed.

Lemma list_set_length (l : list node_t) i a :
  List.length (list_set l i a) = List.length l.
Proof.
  revert i; induction l as [|b l IH]; intros i; simpl; [reflexivity|].
  destruct (i =? 0); simpl; [reflexivity|]. now rewrite IH.
Qed.

Lemma list_at_set_same (l : list node_t) i a :
  i < N.of_nat (List.length l) -> list_at (list_set l i a) i = Some a.
Proof.
  revert i; induction l as [|b l IH]; intros i H; simpl in *; [lia|].
  destruct (N.eqb_spec i 0) as [Hi|Hi]; simpl.
  - now rewrite Hi.
  - destruct (N.eqb_spec i 0); [contradiction|]. apply IH. lia.
Qed.

Lemma list_at_set_other (l : list node_t) i j a :
  i <> j -> list_at (list_set l i a) j = list_at l j.
Proof.
  revert i j; induction l as [|b l IH]; intros i j H; simpl; [reflexivity|].
  destruct (N.eqb_spec i 0) as [Hi|Hi]; simpl.
  - destruct (N.eqb_spec j 0); [congruence|reflexivity].
  - destruct (N.eqb_spec j 0); [reflexivity|]. apply IH. lia.
Qed.

Lemma list_at_app_old (l : list node_t) a i :
  i < N.of_nat (List.length l) -> list_at (l ++ [a]) i = list_at l i.
Proof.
  revert i; induction l as [|b l IH]; intros i H; simpl in *; [lia|].
  destruct (N.eqb_spec i 0); [reflexivity|]. apply IH. lia.
Qed.

Lemma list_at_app_new (l : list node_t) a :
  list_at (l ++ [a]) (N.of_nat (List.length l)) = Some a.
Proof.
  induction l as [|b l IH]; simpl; [reflexivity|].
  destruct (N.eqb_spec (N.pos (Pos.of_succ_nat (List.length l))) 0); [lia|].
  replace (Pos.pred_N (Pos.of_succ_nat (List.length l)))
    with (N.of_nat (List.length l)) by lia.
  exact IH.
Qed.

(** ** Handles and slots *)

Lemma max_size_le : max_size <= 9223372036854775807.
Proof.
  unfold max_size. change PTRDIFF_MAX with 9223372036854775807.
  destruct (N.eq_dec sizeof_node_t 0) as [->|Hs].
  - rewrite N.div_0_r. lia.
  - apply N.Div0.div_le_upper_bound. nia.
Qed.

Lemma size_t_sub_pos x : x <> 0 -> size_t_sub x 1 = x - 1.
Proof.
  intros Hx. unfold size_t_sub.
  destruct (N.leb_spec 1 x); [reflexivity|lia].
Qed.

Lemma size_t_sub_sentinel : size_t_sub 0 1 = SIZE_MAX.
Proof. reflexivity. Qed.

Lemma slot_range p x n :
  slot p x = Some n -> 1 <= x <= vec_size (pool p).
Proof.
  unfold slot, vec_size. destruct (N.eqb_spec x 0); [discriminate|].
  intros H. apply list_at_lt in H. lia.
Qed.

Lemma slot_some p x :
  1 <= x <= vec_size (pool p) -> exists n, slot p x = Some n.
Proof.
  unfold slot, vec_size. intros H.
  destruct (N.eqb_spec x 0); [lia|].
  apply list_at_some. lia.
Qed.

Lemma slot_sentinel p : slot p 0 = None.
Proof. reflexivity. Qed.

Lemma slot_nonzero p x n : slot p x = Some n -> x <> 0.
Proof. intros H. apply slot_range in H. lia. Qed.

Lemma node_load_slot p x n :
  slot p x = Some n -> node_load x p = Ok (n, p).
Proof.
  intros H. pose proof (slot_range _ _ _ H) as Hr.
  unfold node_load, capacity, vec_capacity.
  destruct (N.ltb_spec (vec_size (pool p) + spare (pool p)) x); [lia|].
  rewrite size_t_sub_pos by lia. cbv zeta.
  destruct (N.ltb_spec (x - 1) (vec_size (pool p))); [|lia].
  unfold slot in H. destruct (N.eqb_spec x 0); [lia|].
  now rewrite H.
Qed.

Lemma node_store_slot p x n f :
  slot p x = Some n -> node_store x f p = Ok (tt, store p x (f n)).
Proof.
  intros H. pose proof (slot_range _ _ _ H) as Hr.
  unfold node_store, capacity, vec_capacity.
  destruct (N.ltb_spec (vec_size (pool p) + spare (pool p)) x); [lia|].
  rewrite size_t_sub_pos by lia. cbv zeta.
  destruct (N.ltb_spec (x - 1) (vec_size (pool p))); [|lia].
  unfold slot in H. destruct (N.eqb_spec x 0); [lia|].
  now rewrite H.
Qed.

(** Within a vector that respects [max_size()], index [SIZE_MAX] is
    past the end: the sentinel names no element. *)
Lemma node_load_sentinel p : vec_ok p -> node_load 0 p = OutOfBounds.
Proof.
  unfold vec_ok, capacity, vec_capacity. intros H.
  pose proof max_size_le as Hmax.
  unfold node_load, capacity, vec_capacity.
  destruct (N.ltb_spec (vec_size (pool p) + spare (pool p)) 0); [lia|].
  rewrite size_t_sub_sentinel. cbv zeta.
  destruct (N.ltb_spec SIZE_MAX (vec_size (pool p))) as [Hlt|]; [|reflexivity].
  unfold SIZE_MAX in Hlt. simpl in Hlt. lia.
Qed.

Lemma node_store_sentinel p f : vec_ok p -> node_store 0 f p = OutOfBounds.
Proof.
  unfold vec_ok, capacity, vec_capacity. intros H.
  pose proof max_size_le as Hmax.
  unfold node_store, capacity, vec_capacity.
  destruct (N.ltb_spec (vec_size (pool p) + spare (pool p)) 0); [lia|].
  rewrite size_t_sub_sentinel. cbv zeta.
  destruct (N.ltb_spec SIZE_MAX (vec_size (pool p))) as [Hlt|]; [|reflexivity].
  unfold SIZE_MAX in Hlt. simpl in Hlt. lia.
Qed.

Lemma node_load_ok p x n p' :
  vec_ok p -> node_load x p = Ok (n, p') -> slot p x = Some n /\ p' = p.
Proof.
  intros Hv H. destruct (N.eq_dec x 0) as [->|Hx].
  - rewrite node_load_sentinel in H by assumption. discriminate.
  - unfold node_load in H.
    destruct (capacity p <? x); [discriminate|].
    rewrite size_t_sub_pos in H by assumption. cbv zeta in H.
    destruct (x - 1 <? vec_size (pool p)); [|discriminate].
    unfold slot. destruct (N.eqb_spec x 0); [contradiction|].
    destruct (list_at (elems (pool p)) (x - 1)); [|discriminate].
    inversion H; subst. split; reflexivity.
Qed.

Lemma node_store_ok p x f u p' :
  vec_ok p -> node_store x f p = Ok (u, p') ->
  exists n, slot p x = Some n /\ p' = store p x (f n).
Proof.
  intros Hv H. destruct (N.eq_dec x 0) as [->|Hx].
  - rewrite node_store_sentinel in H by assumption. discriminate.
  - unfold node_store in H.
    destruct (capacity p <? x); [discriminate|].
    rewrite size_t_sub_pos in H by assumption. cbv zeta in H.
    destruct (x - 1 <? vec_size (pool p)); [|discriminate].
    unfold slot. destruct (N.eqb_spec x 0) as [E0|E0]; [contradiction|].
    destruct (list_at (elems (pool p)) (x - 1)) as [n0|]; [|discriminate].
    inversion H; subst. exists n0. split; reflexivity.
Qed.

Lemma store_free_nodes p x n : free_nodes (store p x n) = free_nodes p.
Proof. reflexivity. Qed.

Lemma store_size p x n : vec_size (pool (store p x n)) = vec_size (pool p).
Proof. unfold vec_size, store. simpl. now rewrite list_set_length. Qed.

Lemma store_capacity p x n : capacity (store p x n) = capacity p.
Proof.
  unfold capacity, vec_capacity. rewrite store_size. reflexivity.
Qed.

Lemma store_vec_ok p x n : vec_ok p -> vec_ok (store p x n).
Proof. unfold vec_ok. now rewrite store_capacity. Qed.

Lemma slot_store p x m y :
  slot p x <> None ->
  slot (store p x m) y = if y =? x then Some m else slot p y.
Proof.
  intros Hx. destruct (slot p x) as [n0|] eqn:E; [clear Hx|congruence].
  pose proof (slot_range _ _ _ E) as Hr.
  unfold slot, store. simpl.
  destruct (N.eqb_spec y x) as [Hyx|Hyx].
  - subst y. destruct (N.eqb_spec x 0); [lia|].
    apply list_at_set_same. unfold vec_size in Hr. lia.
  - destruct (N.eqb_spec y 0); [reflexivity|].
    apply list_at_set_other. lia.
Qed.

Lemma set_free_nodes_slot p x y : slot (mk_pool (pool p) x) y = slot p y.
Proof. reflexivity. Qed.

(** ** Running a computation step by step *)

Lemma bind_ok {A B} (c : M A) (k : A -> M B) p r :
  bind c k p = Ok r -> exists a p1, c p = Ok (a, p1) /\ k a p1 = Ok r.
Proof.
  unfold bind. destruct (c p) as [[a p1]| | |]; try discriminate.
  intros H. exists a, p1. split; [reflexivity|assumption].
Qed.

Lemma bind_step {A B} (c : M A) (k : A -> M B) p a p1 :
  c p = Ok (a, p1) -> bind c k p = k a p1.
Proof. unfold bind. now intros ->. Qed.

Lemma value_ok p x v p' :
  vec_ok p -> value x p = Ok (v, p') ->
  exists n, slot p x = Some n /\ v = node_value n /\ p' = p.
Proof.
  intros Hv H. apply bind_ok in H as (n0 & p1 & H1 & H2).
  apply node_load_ok in H1 as [Hs ->]; [|assumption].
  inversion H2; subst. eauto.
Qed.

Lemma next_ok p x y p' :
  vec_ok p -> next x p = Ok (y, p') ->
  exists n, slot p x = Some n /\ y = node_next n /\ p' = p.
Proof.
  intros Hv H. apply bind_ok in H as (n0 & p1 & H1 & H2).
  apply node_load_ok in H1 as [Hs ->]; [|assumption].
  inversion H2; subst. eauto.
Qed.

Lemma isHead_ok p x b p' :
  vec_ok p -> isHead x p = Ok (b, p') ->
  exists n, slot p x = Some n /\ b = node_isHead n /\ p' = p.
Proof.
  intros Hv H. apply bind_ok in H as (n0 & p1 & H1 & H2).
  apply node_load_ok in H1 as [Hs ->]; [|assumption].
  inversion H2; subst. eauto.
Qed.

Lemma value_slot p x n : slot p x = Some n -> value x p = Ok (node_value n, p).
Proof.
  intros H. unfold value. now rewrite (bind_step _ _ _ _ _ (node_load_slot _ _ _ H)).
Qed.

Lemma next_slot p x n : slot p x = Some n -> next x p = Ok (node_next n, p).
Proof.
  intros H. unfold next. now rewrite (bind_step _ _ _ _ _ (node_load_slot _ _ _ H)).
Qed.

Lemma isHead_slot p x n :
  slot p x = Some n -> isHead x p = Ok (node_isHead n, p).
Proof.
  intros H. unfold isHead. now rewrite (bind_step _ _ _ _ _ (node_load_slot _ _ _ H)).
Qed.

(** ** emplace_back *)

Lemma list_at_past (l : list node_t) i :
  N.of_nat (List.length l) <= i -> list_at l i = None.
Proof.
  intros H. destruct (list_at l i) as [a|] eqn:E; [|reflexivity].
  apply list_at_lt in E. lia.
Qed.

Lemma slot_append p n sp fn y :
  slot (mk_pool (mk_vector (elems (pool p) ++ [n]) sp) fn) y =
  if y =? vec_size (pool p) + 1 then Some n else slot p y.
Proof.
  unfold slot, vec_size. simpl.
  destruct (N.eqb_spec y 0) as [E0|E0].
  - destruct (N.eqb_spec y (N.of_nat (List.length (elems (pool p))) + 1)); [lia|].
    reflexivity.
  - destruct (N.eqb_spec y (N.of_nat (List.length (elems (pool p))) + 1)) as [E1|E1].
    + replace (y - 1) with (N.of_nat (List.length (elems (pool p)))) by lia.
      apply list_at_app_new.
    + destruct (N.lt_ge_cases (y - 1) (N.of_nat (List.length (elems (pool p))))).
      * now apply list_at_app_old.
      * rewrite !list_at_past; [reflexivity|lia|].
        rewrite length_app. simpl. lia.
Qed.

Lemma emplace_back_ok p n u p' :
  vec_ok p -> emplace_back n p = Ok (u, p') ->
  vec_ok p' /\ free_nodes p' = free_nodes p /\
  vec_size (pool p') = vec_size (pool p) + 1 /\
  forall y, slot p' y =
            if y =? vec_size (pool p) + 1 then Some n else slot p y.
Proof.
  unfold vec_ok, capacity, vec_capacity.
  intros Hv H. unfold emplace_back in H.
  assert (Hlen : forall sp fn,
    vec_size (pool (mk_pool (mk_vector (elems (pool p) ++ [n]) sp) fn)) =
    vec_size (pool p) + 1).
  { intros. unfold vec_size. simpl. rewrite length_app. simpl. lia. }
  destruct (N.ltb_spec 0 (spare (pool p))) as [Hsp|Hsp].
  - inversion H; subst; clear H. rewrite Hlen.
    repeat split; [simpl; lia|apply slot_append].
  - destruct (N.leb_spec max_size (vec_size (pool p))) as [Hm|Hm];
      [discriminate|].
    destruct (grow (vec_size (pool p))) as [s0|]; [|discriminate].
    pose proof (N.le_min_r s0 (max_size - vec_size (pool p) - 1)) as Hs0.
    set (sp := N.min s0 (max_size - vec_size (pool p) - 1)) in *.
    clearbody sp.
    inversion H; subst; clear H. rewrite Hlen.
    repeat split; [simpl; lia|apply slot_append].
Qed.

(** ** What a successful _push and a successful pop did *)

Ltac slot_known :=
  match goal with
  | H : slot ?p ?x = Some _ |- slot ?p ?x <> None => rewrite H; discriminate
  end.

Ltac inv_ok H := inversion H; subst; clear H.

Lemma is_same_value_type X : is_same X value_type = true -> X = value_type.
Proof.
  destruct X as [[] []]; simpl; intros H; try discriminate; reflexivity.
Qed.

Lemma set_free_nodes_vec_ok p x : vec_ok p -> vec_ok (mk_pool (pool p) x).
Proof. exact (fun H => H). Qed.

Lemma get_free_nodes_ok p a p' :
  get_free_nodes p = Ok (a, p') -> a = free_nodes p /\ p' = p.
Proof. intros H. inversion H. split; reflexivity. Qed.

Lemma set_free_nodes_ok p x u p' :
  set_free_nodes x p = Ok (u, p') -> p' = mk_pool (pool p) x.
Proof. intros H. inversion H. reflexivity. Qed.

Lemma empty_ok p x e p' :
  const_call (fun q => empty q x) p = Ok (e, p') -> e = (x =? 0) /\ p' = p.
Proof. intros H. inversion H. split; reflexivity. Qed.

Lemma ret_ok {A} (a b : A) p p' : ret a p = Ok (b, p') -> b = a /\ p' = p.
Proof. intros H. inversion H. split; reflexivity. Qed.

Lemma pool_size_ok p a p' :
  pool_size p = Ok (a, p') -> a = vec_size (pool p) /\ p' = p.
Proof. intros H. inversion H. split; reflexivity. Qed.

Lemma push_reuse_spec X v h p t p' :
  vec_ok p -> free_nodes p <> 0 -> _push X v h p = Ok (t, p') ->
  exists nf nh,
    slot p (free_nodes p) = Some nf /\ t = free_nodes p /\
    (h <> t -> slot p h = Some nh) /\
    vec_ok p' /\ free_nodes p' = node_next nf /\
    vec_size (pool p') = vec_size (pool p) /\
    forall y, slot p' y =
              if y =? t then Some (mk_node v h true)
              else if y =? h
                   then Some (mk_node (node_value nh) (node_next nh) false)
                   else slot p y.
Proof.
  intros Hv Hf H. unfold _push in H.
  destruct (is_same X value_type); [|discriminate]. simpl negb in H. cbv iota in H.
  apply bind_ok in H as (fn & p1 & H1 & H).
  apply get_free_nodes_ok in H1 as [-> ->].
  apply bind_ok in H as (e & p1 & H1 & H).
  apply empty_ok in H1 as [-> ->].
  destruct (N.eqb_spec (free_nodes p) 0) as [E|_]; [contradiction|].
  simpl negb in H. cbv iota in H.
  apply bind_ok in H as (u1 & p1 & H1 & H).
  apply node_store_ok in H1 as (nf & Hnf & ->); [|assumption].
  pose proof (store_vec_ok p (free_nodes p)
    (mk_node v (node_next nf) (node_isHead nf)) Hv) as Hv1.
  apply bind_ok in H as (fn' & p2 & H2 & H).
  apply get_free_nodes_ok in H2 as [-> ->].
  rewrite store_free_nodes in H.
  apply bind_ok in H as (nx & p2 & H2 & H).
  apply next_ok in H2 as (n2 & Hn2 & -> & ->); [|assumption].
  rewrite slot_store, N.eqb_refl in Hn2 by slot_known. inv_ok Hn2.
  simpl node_next in H.
  apply bind_ok in H as (u3 & p3 & H3 & H).
  apply set_free_nodes_ok in H3 as ->.
  apply bind_ok in H as (u4 & p4 & H4 & H).
  apply node_store_ok in H4 as (n4 & Hn4 & ->);
    [|now apply set_free_nodes_vec_ok].
  rewrite set_free_nodes_slot, slot_store, N.eqb_refl in Hn4 by slot_known.
  inv_ok Hn4. cbn [node_value node_next node_isHead] in H.
  set (p3 := mk_pool _ (node_next nf)) in *.
  assert (Hs3 : forall y, slot p3 y =
            if y =? free_nodes p
            then Some (mk_node v (node_next nf) (node_isHead nf))
            else slot p y).
  { intros y. unfold p3. rewrite set_free_nodes_slot.
    now rewrite slot_store by slot_known. }
  assert (Hv3 : vec_ok p3) by (now apply set_free_nodes_vec_ok).
  assert (Hsz3 : vec_size (pool p3) = vec_size (pool p))
    by (unfold p3; simpl pool; apply store_size).
  assert (Hf3 : free_nodes p3 = node_next nf) by reflexivity.
  assert (Hk3 : slot p3 (free_nodes p) <> None)
    by (rewrite Hs3, N.eqb_refl; discriminate).
  clearbody p3.
  set (p4 := store p3 (free_nodes p) (mk_node v h (node_isHead nf))) in *.
  assert (Hs4 : forall y, slot p4 y =
            if y =? free_nodes p
            then Some (mk_node v h (node_isHead nf))
            else slot p y).
  { intros y. unfold p4. rewrite slot_store by assumption. rewrite Hs3.
    now destruct (y =? free_nodes p). }
  assert (Hv4 : vec_ok p4) by (now apply store_vec_ok).
  assert (Hsz4 : vec_size (pool p4) = vec_size (pool p))
    by (unfold p4; now rewrite store_size).
  assert (Hf4 : free_nodes p4 = node_next nf)
    by (unfold p4; rewrite store_free_nodes; exact Hf3).
  clearbody p4. clear Hs3 Hv3 Hsz3 Hf3 Hk3 p3 Hv1.
  apply bind_ok in H as (u5 & p5 & H5 & H).
  apply node_store_ok in H5 as (n5 & Hn5 & ->); [|assumption].
  apply bind_ok in H as (u6 & p6 & H6 & H).
  apply node_store_ok in H6 as (n6 & Hn6 & ->); [|now apply store_vec_ok].
  apply ret_ok in H as [-> ->].
  exists nf, n5. split; [assumption|]. split; [reflexivity|].
  split.
  { intros Hne. rewrite Hs4 in Hn5.
    destruct (N.eqb_spec h (free_nodes p)); [contradiction|assumption]. }
  split; [now repeat apply store_vec_ok|].
  split; [now rewrite !store_free_nodes|].
  split; [now rewrite !store_size|].
  intros y. rewrite slot_store by slot_known.
  rewrite slot_store in Hn6 by slot_known.
  rewrite slot_store by slot_known. rewrite Hs4 in *.
  rewrite N.eqb_refl in Hn6.
  destruct (N.eqb_spec y (free_nodes p)) as [Ey|Hy].
  - destruct (N.eqb_spec (free_nodes p) h) as [E|E].
    + rewrite <- E, N.eqb_refl in Hn5.
      injection Hn5 as <-. injection Hn6 as <-. now rewrite <- E.
    + injection Hn6 as <-. reflexivity.
  - destruct (N.eqb_spec y h); reflexivity.
Qed.

Lemma push_append_spec X v h p t p' :
  vec_ok p -> free_nodes p = 0 -> _push X v h p = Ok (t, p') ->
  exists nh,
    t = vec_size (pool p) + 1 /\
    (h <> t -> slot p h = Some nh) /\
    (h = t -> nh = mk_node v h true) /\
    vec_ok p' /\ free_nodes p' = 0 /\
    vec_size (pool p') = vec_size (pool p) + 1 /\
    forall y, slot p' y =
              if y =? h
              then Some (mk_node (node_value nh) (node_next nh) false)
              else if y =? t then Some (mk_node v h true) else slot p y.
Proof.
  intros Hv Hf H. unfold _push in H.
  destruct (is_same X value_type); [|discriminate]. simpl negb in H. cbv iota in H.
  apply bind_ok in H as (fn & p1 & H1 & H).
  apply get_free_nodes_ok in H1 as [-> ->].
  apply bind_ok in H as (e & p1 & H1 & H).
  apply empty_ok in H1 as [-> ->].
  rewrite Hf in H. simpl negb in H. cbv iota in H.
  apply bind_ok in H as (u1 & p1 & H1 & H).
  apply emplace_back_ok in H1 as (Hv1 & Hf1 & Hsz1 & Hs1); [|assumption].
  apply bind_ok in H as (u2 & p2 & H2 & H).
  apply node_store_ok in H2 as (nh & Hnh & ->); [|assumption].
  apply pool_size_ok in H as [-> ->].
  exists nh. rewrite store_size, Hsz1. split; [reflexivity|].
  rewrite Hs1 in Hnh.
  split.
  { intros Hne. destruct (N.eqb_spec h (vec_size (pool p) + 1));
      [contradiction|assumption]. }
  split.
  { intros E. rewrite E, N.eqb_refl in Hnh. injection Hnh as <-.
    now rewrite <- E. }
  split; [now apply store_vec_ok|].
  split; [rewrite store_free_nodes; congruence|].
  split; [reflexivity|].
  intros y. rewrite slot_store by (rewrite Hs1, Hnh; discriminate).
  destruct (N.eqb_spec y h); [reflexivity|]. apply Hs1.
Qed.

Lemma pop_spec x p t p' :
  vec_ok p -> pop x p = Ok (t, p') ->
  exists nx nt,
    slot p x = Some nx /\ node_isHead nx = true /\ t = node_next nx /\
    (t <> x -> slot p t = Some nt) /\ t <> 0 /\
    vec_ok p' /\ free_nodes p' = x /\
    vec_size (pool p') = vec_size (pool p) /\
    forall y, slot p' y =
              if y =? x then Some (mk_node minus_one (free_nodes p) false)
              else if y =? t
                   then Some (mk_node (node_value nt) (node_next nt) true)
                   else slot p y.
Proof.
  intros Hv H. unfold pop in H.
  apply bind_ok in H as (b & p1 & H1 & H).
  apply isHead_ok in H1 as (nx & Hnx & -> & ->); [|assumption].
  destruct (node_isHead nx) eqn:Hhead; [|discriminate].
  simpl negb in H. cbv iota in H.
  apply bind_ok in H as (e & p1 & H1 & H).
  apply empty_ok in H1 as [-> ->].
  destruct (x =? 0); [discriminate|].
  apply bind_ok in H as (t0 & p1 & H1 & H).
  apply next_ok in H1 as (nx' & Hnx' & -> & ->); [|assumption].
  rewrite Hnx in Hnx'. injection Hnx' as <-.
  apply bind_ok in H as (fn & p1 & H1 & H).
  apply get_free_nodes_ok in H1 as [-> ->].
  apply bind_ok in H as (u1 & p1 & H1 & H).
  apply node_store_ok in H1 as (n1 & Hn1 & ->); [|assumption].
  rewrite Hnx in Hn1. injection Hn1 as <-.
  apply bind_ok in H as (u2 & p2 & H2 & H).
  apply set_free_nodes_ok in H2 as ->.
  set (p2 := mk_pool _ x) in *.
  assert (Hs2 : forall y, slot p2 y =
            if y =? x
            then Some (mk_node (node_value nx) (free_nodes p) (node_isHead nx))
            else slot p y).
  { intros y. unfold p2. rewrite set_free_nodes_slot.
    now rewrite slot_store by slot_known. }
  assert (Hv2 : vec_ok p2)
    by (now apply set_free_nodes_vec_ok, store_vec_ok).
  assert (Hsz2 : vec_size (pool p2) = vec_size (pool p))
    by (unfold p2; simpl pool; apply store_size).
  assert (Hf2 : free_nodes p2 = x) by reflexivity.
  clearbody p2.
  apply bind_ok in H as (u3 & p3 & H3 & H).
  apply node_store_ok in H3 as (n3 & Hn3 & ->); [|assumption].
  assert (Hk2 : slot p2 x <> None) by (rewrite Hn3; discriminate).
  rewrite Hs2, N.eqb_refl in Hn3. injection Hn3 as <-.
  cbn [node_value node_next node_isHead] in H.
  set (p3 := store p2 x _) in *.
  assert (Hs3 : forall y, slot p3 y =
            if y =? x
            then Some (mk_node minus_one (free_nodes p) (node_isHead nx))
            else slot p y).
  { intros y. unfold p3. rewrite slot_store by assumption. rewrite Hs2.
    now destruct (y =? x). }
  assert (Hv3 : vec_ok p3) by (now apply store_vec_ok).
  assert (Hsz3 : vec_size (pool p3) = vec_size (pool p))
    by (unfold p3; now rewrite store_size).
  assert (Hf3 : free_nodes p3 = x)
    by (unfold p3; rewrite store_free_nodes; exact Hf2).
  clearbody p3. clear Hs2 Hv2 Hsz2 Hf2 Hk2 p2.
  apply bind_ok in H as (u4 & p4 & H4 & H).
  apply node_store_ok in H4 as (nt & Hnt & ->); [|assumption].
  apply bind_ok in H as (u5 & p5 & H5 & H).
  apply node_store_ok in H5 as (n5 & Hn5 & ->); [|now apply store_vec_ok].
  apply ret_ok in H as [-> ->].
  exists nx, nt. split; [assumption|]. split; [assumption|].
  split; [reflexivity|].
  split.
  { intros Hne. rewrite Hs3 in Hnt.
    destruct (N.eqb_spec (node_next nx) x); [contradiction|assumption]. }
  split; [exact (slot_nonzero _ _ _ Hnt)|].
  split; [now repeat apply store_vec_ok|].
  split; [now rewrite !store_free_nodes|].
  split; [now rewrite !store_size|].
  intros y. rewrite slot_store by slot_known.
  rewrite slot_store in Hn5 by slot_known.
  rewrite slot_store by slot_known. rewrite Hs3 in *.
  rewrite N.eqb_refl in Hn5.
  destruct (N.eqb_spec y x) as [Ey|Hy].
  - destruct (N.eqb_spec x (node_next nx)) as [E|E].
    + rewrite <- E, N.eqb_refl in Hnt.
      injection Hnt as <-. injection Hn5 as <-. reflexivity.
    + injection Hn5 as <-. reflexivity.
  - destruct (N.eqb_spec y (node_next nx)); reflexivity.
Qed.

(** ** Chains, flags and the nodes an operation leaves alone *)

Lemma chain_nil_inv p x : chain p x [] -> x = 0.
Proof. intros H. inversion H. reflexivity. Qed.

Lemma chain_cons_inv p x y l :
  chain p x (y :: l) ->
  y = x /\ exists n, slot p x = Some n /\ chain p (node_next n) l.
Proof. intros H. inversion H; subst. eauto. Qed.

Lemma chain_sentinel p l : chain p 0 l -> l = [].
Proof.
  intros H. inversion H as [|x n l' Hs Hc]; [reflexivity|].
  subst. rewrite slot_sentinel in Hs. discriminate.
Qed.

Lemma chain_slots p x l :
  chain p x l -> Forall (fun y => exists n, slot p y = Some n) l.
Proof. induction 1; constructor; eauto. Qed.

Lemma chain_agree p p' x l :
  (forall y, In y l -> slot p' y = slot p y) -> chain p x l -> chain p' x l.
Proof.
  intros Ha Hc. induction Hc as [|x n l Hs Hc IH]; [constructor|].
  apply chain_link with n.
  - rewrite Ha by (left; reflexivity). assumption.
  - apply IH. intros y Hy. apply Ha. now right.
Qed.

Lemma flags_agree p p' l b :
  (forall y, In y l -> slot p' y = slot p y) ->
  Forall (fun y => flag p y b) l -> Forall (fun y => flag p' y b) l.
Proof.
  intros Ha Hf. rewrite Forall_forall in *. intros y Hy.
  destruct (Hf y Hy) as (n & Hn & Hb). exists n.
  rewrite Ha by assumption. split; assumption.
Qed.

Lemma live_stack_agree p p' s :
  (forall y, In y s -> slot p' y = slot p y) ->
  live_stack p s -> live_stack p' s.
Proof.
  destruct s as [|h rest]; [trivial|]. intros Ha (Hc & Hh & Hr).
  split; [now apply chain_agree with p|]. split.
  - destruct Hh as (n & Hn & Hb). exists n.
    rewrite Ha by (left; reflexivity). split; assumption.
  - apply flags_agree with p; [|assumption].
    intros y Hy. apply Ha. now right.
Qed.

Lemma live_stacks_agree p p' ss :
  (forall y, In y (concat ss) -> slot p' y = slot p y) ->
  Forall (live_stack p) ss -> Forall (live_stack p') ss.
Proof.
  intros Ha Hf. rewrite Forall_forall in *. intros s0 Hs0.
  apply live_stack_agree with p; [|now apply Hf].
  intros y Hy. apply Ha. apply in_concat. eauto.
Qed.

(** The handles of the pool with one stack brought to the front. *)
Lemma focus_perm (s1 s2 : list (list N)) (s fl : list N) :
  Permutation (concat (s1 ++ s :: s2) ++ fl)
              (s ++ fl ++ concat s1 ++ concat s2).
Proof.
  rewrite concat_app. simpl concat.
  rewrite <- app_assoc.
  etransitivity; [apply Permutation_app_swap_app|].
  rewrite <- app_assoc. apply Permutation_app_head.
  etransitivity; [apply Permutation_app_comm|].
  rewrite <- app_assoc. apply Permutation_app_swap_app.
Qed.

Lemma live_stack_slots p s :
  live_stack p s -> Forall (fun y => exists n, slot p y = Some n) s.
Proof.
  destruct s as [|h rest]; [contradiction|]. intros (Hc & _ & _).
  now apply chain_slots in Hc.
Qed.

Lemma live_stacks_slots p ss y :
  Forall (live_stack p) ss -> In y (concat ss) -> exists n, slot p y = Some n.
Proof.
  intros Hf Hy. apply in_concat in Hy as (s0 & Hs0 & Hy).
  rewrite Forall_forall in Hf. apply Hf, live_stack_slots in Hs0.
  rewrite Forall_forall in Hs0. now apply Hs0.
Qed.

(** Two handles in front of a duplicate-free list differ from each
    other and from every handle behind them. *)
Lemma nodup_two (a b : N) (U : list N) :
  NoDup (a :: b :: U) ->
  a <> b /\ forall y, In y U -> y <> a /\ y <> b.
Proof.
  intros H. inversion H as [|? ? Ha H']; subst.
  inversion H' as [|? ? Hb _]; subst. split.
  - intros ->. apply Ha. now left.
  - intros y Hy. split; intros ->.
    + apply Ha. now right.
    + now apply Hb.
Qed.

(** ** The head invariant is kept by push *)

Lemma push_finish v h nh p p' t s1 rest s2 fl' :
  vec_ok p' ->
  NoDup (t :: h :: rest ++ fl' ++ concat s1 ++ concat s2) ->
  slot p h = Some nh ->
  (forall y, slot p' y =
             if y =? t then Some (mk_node v h true)
             else if y =? h
                  then Some (mk_node (node_value nh) (node_next nh) false)
                  else slot p y) ->
  Forall (live_stack p) s1 -> Forall (live_stack p) s2 ->
  chain p (node_next nh) rest -> Forall (fun y => flag p y false) rest ->
  chain p (free_nodes p') fl' -> Forall (fun y => flag p y false) fl' ->
  pool_inv p' (s1 ++ (t :: h :: rest) :: s2) fl'.
Proof.
  intros Hv Hnd Hh Hs Hl1 Hl2 Hc Hfr Hfc Hff.
  destruct (nodup_two _ _ _ Hnd) as [Hth Hother].
  assert (Ha : forall y, In y (rest ++ fl' ++ concat s1 ++ concat s2) ->
                         slot p' y = slot p y).
  { intros y Hy. destruct (Hother y Hy) as [Hyt Hyh]. rewrite Hs.
    destruct (N.eqb_spec y t); [contradiction|].
    destruct (N.eqb_spec y h); [contradiction|reflexivity]. }
  assert (Hst : slot p' t = Some (mk_node v h true))
    by (now rewrite Hs, N.eqb_refl).
  assert (Hsh : slot p' h =
                Some (mk_node (node_value nh) (node_next nh) false)).
  { rewrite Hs. destruct (N.eqb_spec h t); [congruence|].
    now rewrite N.eqb_refl. }
  split.
  - assumption.
  - apply Forall_app. split; [|constructor].
    + apply live_stacks_agree with p; [|assumption].
      intros y Hy. apply Ha. rewrite !in_app_iff. tauto.
    + split; [|split].
      * apply chain_link with (mk_node v h true); [assumption|].
        apply chain_link
          with (mk_node (node_value nh) (node_next nh) false);
          [assumption|].
        apply chain_agree with p; [|assumption].
        intros y Hy. apply Ha. rewrite !in_app_iff. tauto.
      * exists (mk_node v h true). split; [assumption|reflexivity].
      * constructor.
        -- eexists. split; [eassumption|reflexivity].
        -- apply flags_agree with p; [|assumption].
           intros y Hy. apply Ha. rewrite !in_app_iff. tauto.
    + apply live_stacks_agree with p; [|assumption].
      intros y Hy. apply Ha. rewrite !in_app_iff. tauto.
  - split.
    + apply chain_agree with p; [|assumption].
      intros y Hy. apply Ha. rewrite !in_app_iff. tauto.
    + apply flags_agree with p; [|assumption].
      intros y Hy. apply Ha. rewrite !in_app_iff. tauto.
  - eapply Permutation_NoDup; [|exact Hnd].
    symmetry. apply (focus_perm s1 s2 (t :: h :: rest) fl').
Qed.

Lemma push_keeps_inv X v h p t p' s1 rest s2 fl :
  pool_inv p (s1 ++ (h :: rest) :: s2) fl ->
  _push X v h p = Ok (t, p') ->
  pool_inv p' (s1 ++ (t :: h :: rest) :: s2) (tl fl).
Proof.
  intros [Hv Hst [Hfc Hff] Hnd] H.
  apply (Permutation_NoDup (focus_perm _ _ _ _)) in Hnd.
  apply Forall_app in Hst as [Hl1 Hst].
  apply Forall_cons_iff in Hst as [(Hc & Hfh & Hfr) Hl2].
  apply chain_cons_inv in Hc as (_ & nh & Hnh & Hc).
  destruct fl as [|f fl']; simpl tl.
  - apply chain_nil_inv in Hfc.
    destruct (push_append_spec _ _ _ _ _ _ Hv Hfc H)
      as (nh' & -> & Hh' & _ & Hv' & Hf' & _ & Hs).
    pose proof (slot_range _ _ _ Hnh) as Hr.
    assert (Hne : h <> vec_size (pool p) + 1) by lia.
    specialize (Hh' Hne). rewrite Hnh in Hh'. injection Hh' as <-.
    apply push_finish with v nh p; try assumption.
    + constructor; [|exact Hnd].
      intros [E|Hin]; [congruence|].
      assert (Hex : exists n, slot p (vec_size (pool p) + 1) = Some n).
      { rewrite !in_app_iff in Hin. destruct Hin as [Hin|[[]|Hin]].
        - apply chain_slots in Hc. rewrite Forall_forall in Hc.
          now apply Hc.
        - rewrite <- in_app_iff, <- concat_app in Hin.
          apply live_stacks_slots with (s1 ++ s2); [|assumption].
          apply Forall_app. split; assumption. }
      destruct Hex as (n0 & Hn0). apply slot_range in Hn0. lia.
    + intros y. rewrite Hs.
      destruct (N.eqb_spec y h) as [->|]; [|reflexivity].
      destruct (N.eqb_spec h (vec_size (pool p) + 1));
        [contradiction|reflexivity].
    + rewrite Hf'. constructor.
  - apply chain_cons_inv in Hfc as (-> & nf & Hnf & Hfc).
    pose proof (slot_nonzero _ _ _ Hnf) as Hf0.
    destruct (push_reuse_spec _ _ _ _ _ _ Hv Hf0 H)
      as (nf' & nh' & Hnf' & -> & Hh' & Hv' & Hf' & _ & Hs).
    rewrite Hnf in Hnf'. injection Hnf' as <-.
    assert (Hnd' : NoDup (free_nodes p :: h :: rest ++ fl' ++
                          concat s1 ++ concat s2)).
    { eapply Permutation_NoDup; [|exact Hnd]. simpl.
      etransitivity; [|apply perm_swap]. constructor.
      symmetry. apply Permutation_middle. }
    destruct (nodup_two _ _ _ Hnd') as [Hne _].
    assert (Hne' : h <> free_nodes p) by congruence.
    specialize (Hh' Hne'). rewrite Hnh in Hh'. injection Hh' as <-.
    apply Forall_cons_iff in Hff as [_ Hff].
    apply push_finish with v nh p; try assumption.
    rewrite Hf'. assumption.
Qed.

(** ** The head invariant is kept by pop *)

Lemma pop_keeps_inv x p t p' s1 rest s2 fl :
  pool_inv p (s1 ++ (x :: rest) :: s2) fl ->
  pop x p = Ok (t, p') ->
  exists rest',
    rest = t :: rest' /\
    pool_inv p' (s1 ++ (t :: rest') :: s2) (x :: fl).
Proof.
  intros [Hv Hst [Hfc Hff] Hnd] H.
  apply (Permutation_NoDup (focus_perm _ _ _ _)) in Hnd.
  apply Forall_app in Hst as [Hl1 Hst].
  apply Forall_cons_iff in Hst as [(Hc & Hfh & Hfr) Hl2].
  apply chain_cons_inv in Hc as (_ & nx & Hnx & Hc).
  destruct (pop_spec _ _ _ _ Hv H)
    as (nx' & nt & Hnx' & _ & -> & Ht & Ht0 & Hv' & Hf' & _ & Hs).
  rewrite Hnx in Hnx'. injection Hnx' as <-.
  destruct rest as [|t' rest'].
  { apply chain_nil_inv in Hc. contradiction. }
  apply chain_cons_inv in Hc as (-> & nt0 & Hnt0 & Hc).
  exists rest'. split; [reflexivity|].
  simpl in Hnd.
  destruct (nodup_two _ _ _ Hnd) as [Hxt Hother].
  assert (Hnt : slot p (node_next nx) = Some nt) by (apply Ht; congruence).
  rewrite Hnt0 in Hnt. injection Hnt as <-. clear Ht.
  assert (Ha : forall y, In y (rest' ++ fl ++ concat s1 ++ concat s2) ->
                         slot p' y = slot p y).
  { intros y Hy. destruct (Hother y Hy) as [Hyx Hyt]. rewrite Hs.
    destruct (N.eqb_spec y x); [contradiction|].
    destruct (N.eqb_spec y (node_next nx)); [contradiction|reflexivity]. }
  assert (Hsx : slot p' x = Some (mk_node minus_one (free_nodes p) false))
    by (now rewrite Hs, N.eqb_refl).
  assert (Hst : slot p' (node_next nx) =
                Some (mk_node (node_value nt0) (node_next nt0) true)).
  { rewrite Hs. destruct (N.eqb_spec (node_next nx) x); [congruence|].
    now rewrite N.eqb_refl. }
  apply Forall_cons_iff in Hfr as [_ Hfr].
  split.
  - assumption.
  - apply Forall_app. split; [|constructor].
    + apply live_stacks_agree with p; [|assumption].
      intros y Hy. apply Ha. rewrite !in_app_iff. tauto.
    + split; [|split].
      * apply chain_link
          with (mk_node (node_value nt0) (node_next nt0) true);
          [assumption|].
        apply chain_agree with p; [|assumption].
        intros y Hy. apply Ha. rewrite !in_app_iff. tauto.
      * eexists. split; [eassumption|reflexivity].
      * apply flags_agree with p; [|assumption].
        intros y Hy. apply Ha. rewrite !in_app_iff. tauto.
    + apply live_stacks_agree with p; [|assumption].
      intros y Hy. apply Ha. rewrite !in_app_iff. tauto.
  - split.
    + rewrite Hf'.
      apply chain_link with (mk_node minus_one (free_nodes p) false);
        [assumption|].
      apply chain_agree with p; [|assumption].
      intros y Hy. apply Ha. rewrite !in_app_iff. tauto.
    + constructor.
      * eexists. split; [eassumption|reflexivity].
      * apply flags_agree with p; [|assumption].
        intros y Hy. apply Ha. rewrite !in_app_iff. tauto.
  - eapply Permutation_NoDup; [|exact Hnd].
    etransitivity;
      [|symmetry; apply (focus_perm s1 s2 (node_next nx :: rest') (x :: fl))].
    simpl. etransitivity; [apply perm_swap|]. constructor.
    apply Permutation_middle.
Qed.

(** ** Running _push and pop forwards *)

(** On the reuse branch, the first five statements of [_push] run
    whenever the free-list head is a node; what is left are the two
    assignments to [isHead] and the return. *)
Lemma push_reuse_prefix v h p :
  slot p (free_nodes p) <> None ->
  exists p3,
    push_rvalue v h p =
      bind (set_isHead h false) (fun _ =>
      bind (set_isHead (free_nodes p) true) (fun _ =>
      ret (free_nodes p))) p3 /\
    vec_size (pool p3) = vec_size (pool p) /\
    capacity p3 = capacity p /\
    forall y, slot p3 y <> None <-> slot p y <> None.
Proof.
  intros Hf.
  destruct (slot p (free_nodes p)) as [nf|] eqn:Hnf; [clear Hf|congruence].
  pose proof (slot_nonzero _ _ _ Hnf) as Hf0.
  unfold push_rvalue, _push.
  change (is_same (deduce_forwarding false xvalue) value_type) with true.
  change (negb true) with false. cbv iota.
  rewrite (bind_step _ _ p (free_nodes p) p eq_refl).
  rewrite (bind_step _ _ p (empty p (free_nodes p)) p eq_refl).
  unfold empty, end_.
  destruct (N.eqb_spec (free_nodes p) 0) as [|_]; [contradiction|].
  change (negb false) with true. cbv iota.
  unfold set_value, set_next.
  rewrite (bind_step _ _ _ _ _ (node_store_slot _ _ _ _ Hnf)).
  set (p1 := store p (free_nodes p) _).
  assert (Hs1 : forall y, slot p1 y <> None <-> slot p y <> None).
  { intros y. unfold p1. rewrite slot_store by (rewrite Hnf; discriminate).
    destruct (N.eqb_spec y (free_nodes p)) as [->|]; [|tauto].
    rewrite Hnf. split; discriminate. }
  assert (Hn1 : slot p1 (free_nodes p) =
                Some (mk_node v (node_next nf) (node_isHead nf))).
  { unfold p1. rewrite slot_store by (rewrite Hnf; discriminate).
    now rewrite N.eqb_refl. }
  rewrite (bind_step _ _ p1 (free_nodes p) p1 eq_refl).
  rewrite (bind_step _ _ _ _ _ (next_slot _ _ _ Hn1)).
  cbn [node_next].
  rewrite (bind_step _ _ p1 tt (mk_pool (pool p1) (node_next nf)) eq_refl).
  assert (Hn2 : slot (mk_pool (pool p1) (node_next nf)) (free_nodes p) =
                Some (mk_node v (node_next nf) (node_isHead nf)))
    by exact Hn1.
  rewrite (bind_step _ _ _ _ _ (node_store_slot _ _ _ _ Hn2)).
  cbn [node_value node_next node_isHead].
  set (p3 := store (mk_pool (pool p1) (node_next nf)) (free_nodes p) _).
  exists p3. split; [reflexivity|].
  assert (Hsz3 : vec_size (pool p3) = vec_size (pool p)).
  { unfold p3. rewrite store_size.
    change (vec_size (pool p1) = vec_size (pool p)).
    unfold p1. apply store_size. }
  split; [assumption|]. split.
  { unfold capacity, vec_capacity. rewrite Hsz3. reflexivity. }
  intros y. unfold p3. rewrite slot_store by (rewrite Hn2; discriminate).
  rewrite set_free_nodes_slot.
  destruct (N.eqb_spec y (free_nodes p)) as [->|]; [|apply Hs1].
  rewrite Hnf. split; discriminate.
Qed.

Lemma push_reuse_runs v h p :
  slot p (free_nodes p) <> None -> slot p h <> None ->
  exists p', push_rvalue v h p = Ok (free_nodes p, p') /\
             vec_size (pool p') = vec_size (pool p).
Proof.
  intros Hf Hh.
  destruct (push_reuse_prefix v h p Hf) as (p3 & -> & Hsz3 & _ & Hs3).
  unfold set_isHead.
  destruct (slot p3 h) as [n3|] eqn:Hn3; [|now apply Hs3 in Hh].
  rewrite (bind_step _ _ _ _ _ (node_store_slot _ _ _ _ Hn3)).
  set (p4 := store p3 h _).
  assert (Hs4 : slot p4 (free_nodes p) <> None).
  { unfold p4. rewrite slot_store by (rewrite Hn3; discriminate).
    destruct (free_nodes p =? h); [discriminate|]. now apply Hs3. }
  destruct (slot p4 (free_nodes p)) as [n4|] eqn:Hn4; [|congruence].
  rewrite (bind_step _ _ _ _ _ (node_store_slot _ _ _ _ Hn4)).
  eexists. split; [reflexivity|].
  unfold p4. now rewrite !store_size.
Qed.

Lemma bind_out_of_bounds {A B} (c : M A) (k : A -> M B) p :
  c p = OutOfBounds -> bind c k p = OutOfBounds.
Proof. unfold bind. now intros ->. Qed.

(** Pushing on the sentinel, with a free node to reuse. *)
Lemma push_sentinel_reuse v p :
  vec_ok p -> slot p (free_nodes p) <> None ->
  push_rvalue v 0 p = OutOfBounds.
Proof.
  intros Hv Hf.
  destruct (push_reuse_prefix v 0 p Hf) as (p3 & -> & _ & Hc & _).
  apply bind_out_of_bounds, node_store_sentinel.
  unfold vec_ok. now rewrite Hc.
Qed.

(** Pushing on the sentinel, with the free list empty and room for
    one more node. *)
Lemma push_sentinel_append v p u p1 :
  vec_ok p -> free_nodes p = 0 ->
  emplace_back (mk_node v 0 true) p = Ok (u, p1) ->
  push_rvalue v 0 p = OutOfBounds.
Proof.
  intros Hv Hf He.
  unfold push_rvalue, _push.
  change (is_same (deduce_forwarding false xvalue) value_type) with true.
  change (negb true) with false. cbv iota.
  rewrite (bind_step _ _ p (free_nodes p) p eq_refl).
  rewrite (bind_step _ _ p (empty p (free_nodes p)) p eq_refl).
  unfold empty, end_. rewrite Hf.
  change (negb (0 =? 0)) with false. cbv iota.
  rewrite (bind_step _ _ _ _ _ He).
  apply bind_out_of_bounds, node_store_sentinel.
  now apply emplace_back_ok in He.
Qed.

(** No push on the sentinel returns, whatever the overload. *)
Lemma push_sentinel_stuck X v p r : vec_ok p -> _push X v 0 p <> Ok r.
Proof.
  intros Hv H. destruct r as [t p'].
  destruct (N.eq_dec (free_nodes p) 0) as [Hf|Hf].
  - destruct (push_append_spec _ _ _ _ _ _ Hv Hf H)
      as (nh & -> & Hh & _).
    assert (Hne : 0 <> vec_size (pool p) + 1) by lia.
    specialize (Hh Hne). rewrite slot_sentinel in Hh. discriminate.
  - destruct (push_reuse_spec _ _ _ _ _ _ Hv Hf H)
      as (nf & nh & _ & -> & Hh & _).
    assert (Hne : 0 <> free_nodes p) by congruence.
    specialize (Hh Hne). rewrite slot_sentinel in Hh. discriminate.
Qed.

(** Popping the sentinel. *)
Lemma pop_sentinel p : vec_ok p -> pop 0 p = OutOfBounds.
Proof.
  intros Hv. unfold pop, isHead.
  apply bind_out_of_bounds, bind_out_of_bounds, node_load_sentinel.
  assumption.
Qed.

(** Popping a head whose successor is the sentinel. *)
Lemma pop_last x n p :
  vec_ok p -> slot p x = Some n ->
  node_isHead n = true -> node_next n = 0 ->
  pop x p = OutOfBounds.
Proof.
  intros Hv Hn Hh Hnx.
  pose proof (slot_nonzero _ _ _ Hn) as Hx.
  unfold pop.
  rewrite (bind_step _ _ _ _ _ (isHead_slot _ _ _ Hn)). rewrite Hh.
  change (negb true) with false. cbv iota.
  rewrite (bind_step _ _ p (empty p x) p eq_refl).
  unfold empty, end_.
  destruct (N.eqb_spec x 0) as [|_]; [contradiction|].
  rewrite (bind_step _ _ _ _ _ (next_slot _ _ _ Hn)). rewrite Hnx.
  rewrite (bind_step _ _ p (free_nodes p) p eq_refl).
  unfold set_next, set_value, set_isHead.
  rewrite (bind_step _ _ _ _ _ (node_store_slot _ _ _ _ Hn)).
  set (p1 := store p x _).
  rewrite (bind_step _ _ p1 tt (mk_pool (pool p1) x) eq_refl).
  assert (Hn2 : slot (mk_pool (pool p1) x) x <> None).
  { rewrite set_free_nodes_slot. unfold p1.
    rewrite slot_store by (rewrite Hn; discriminate).
    rewrite N.eqb_refl. discriminate. }
  destruct (slot (mk_pool (pool p1) x) x) as [n2|] eqn:E2; [|congruence].
  rewrite (bind_step _ _ _ _ _ (node_store_slot _ _ _ _ E2)).
  apply bind_out_of_bounds, node_store_sentinel.
  apply store_vec_ok, set_free_nodes_vec_ok. unfold p1.
  now apply store_vec_ok.
Qed.

(** ** The range check of node *)

Lemma bind_throw {A B} (c : M A) (k : A -> M B) p e :
  c p = Throw e -> bind c k p = Throw e.
Proof. unfold bind. now intros ->. Qed.

Lemma bind_throw_inv {A B} (c : M A) (k : A -> M B) p e :
  bind c k p = Throw e ->
  c p = Throw e \/ exists a p1, c p = Ok (a, p1) /\ k a p1 = Throw e.
Proof.
  unfold bind. destruct (c p) as [[a p1]|e'| |]; try discriminate.
  - intros H. right. eauto.
  - intros H. left. congruence.
Qed.

Lemma node_load_past_capacity p x :
  capacity p < x -> node_load x p = Throw RangeCheckingException.
Proof.
  intros H. unfold node_load.
  destruct (N.ltb_spec (capacity p) x); [reflexivity|lia].
Qed.

(** A handle above [size()] but within [capacity()] passes the check
    and indexes the vector past its last element. *)
Lemma node_load_reserved p x :
  vec_size (pool p) < x <= capacity p -> node_load x p = OutOfBounds.
Proof.
  intros H. unfold node_load.
  destruct (N.ltb_spec (capacity p) x); [lia|].
  rewrite size_t_sub_pos by lia. cbv zeta.
  destruct (N.ltb_spec (x - 1) (vec_size (pool p))); [lia|reflexivity].
Qed.

Lemma node_load_throws p x e :
  node_load x p = Throw e -> e = RangeCheckingException.
Proof.
  unfold node_load. destruct (capacity p <? x); [congruence|].
  cbv zeta. destruct (_ <? _); [|discriminate].
  destruct (list_at _ _); discriminate.
Qed.

Lemma node_store_throws p x f e :
  node_store x f p = Throw e -> e = RangeCheckingException.
Proof.
  unfold node_store. destruct (capacity p <? x); [congruence|].
  cbv zeta. destruct (_ <? _); [|discriminate].
  destruct (list_at _ _); discriminate.
Qed.

Lemma emplace_back_throws p n e :
  emplace_back n p = Throw e -> e = length_error \/ e = bad_alloc.
Proof.
  unfold emplace_back. destruct (0 <? spare (pool p)); [discriminate|].
  destruct (max_size <=? vec_size (pool p)); [left; congruence|].
  destruct (grow _); [discriminate|right; congruence].
Qed.

Ltac throw_cases H :=
  first
    [ discriminate H
    | left; eapply node_store_throws; exact H
    | left; eapply node_load_throws; exact H
    | right; eapply emplace_back_throws; exact H
    | apply bind_throw_inv in H as [H|(? & ? & _ & H)];
      [throw_cases H|throw_cases H] ].

(** The overload for rvalues passes the type test: what it can throw
    comes from the range check and from the growth of the vector. *)
Lemma push_rvalue_throws v h p e :
  push_rvalue v h p = Throw e ->
  e = RangeCheckingException \/ e = length_error \/ e = bad_alloc.
Proof.
  unfold push_rvalue, _push.
  change (is_same (deduce_forwarding false xvalue) value_type) with true.
  change (negb true) with false. cbv iota. intros H.
  apply bind_throw_inv in H as [H|(fn & p1 & _ & H)]; [discriminate|].
  apply bind_throw_inv in H as [H|(e0 & p2 & _ & H)]; [discriminate|].
  unfold set_value, set_next, set_isHead, next in H.
  destruct (negb e0); throw_cases H.
Qed.

(** ** length and print_stack along a chain *)

Lemma size_t_succ_small a : a + 1 < 2 ^ 64 -> size_t_succ a = a + 1.
Proof. intros H. unfold size_t_succ. now apply N.mod_small. Qed.

Lemma length_loop_chain p x c l :
  chain p c l ->
  forall fuel acc,
    (List.length l < fuel)%nat ->
    acc + N.of_nat (List.length l) < 2 ^ 64 ->
    length_loop fuel x (mk_iterator c) acc p =
    Some (Ok (acc + N.of_nat (List.length l), p)).
Proof.
  induction 1 as [|c n l Hs Hc IH]; intros fuel acc Hfuel Hacc;
    (destruct fuel as [|fuel]; [simpl in Hfuel; lia|]); simpl length_loop.
  - unfold iterator_neq, iterator_eq, end_iterator, end_. simpl.
    now rewrite N.add_0_r.
  - pose proof (slot_nonzero _ _ _ Hs) as Hc0.
    unfold iterator_neq, iterator_eq, end_iterator, end_.
    cbn [current]. destruct (N.eqb_spec c 0) as [|_]; [contradiction|].
    change (negb false) with true. cbv iota.
    unfold iterator_incr. cbn [current].
    rewrite (bind_step _ _ _ _ _ (next_slot _ _ _ Hs)). unfold ret.
    simpl List.length in *.
    rewrite size_t_succ_small by lia.
    rewrite IH by lia. do 3 f_equal. lia.
Qed.

Lemma length_chain p x l fuel :
  chain p x l -> N.of_nat (List.length l) < 2 ^ 64 ->
  (List.length l < fuel)%nat ->
  length fuel x p = Some (Ok (N.of_nat (List.length l), p)).
Proof.
  intros Hc Hl Hfuel. unfold length, begin_.
  now rewrite (length_loop_chain p x x l Hc fuel 0 Hfuel Hl).
Qed.

Lemma print_stack_loop_chain p x c l :
  chain p c l ->
  forall vs fuel out,
    Forall2 (payload p) l vs ->
    (List.length l < fuel)%nat ->
    print_stack_loop fuel x (mk_iterator c) out p = Some (Ok (out ++ vs, p)).
Proof.
  induction 1 as [|c n l Hs Hc IH]; intros vs fuel out Hvs Hfuel;
    (destruct fuel as [|fuel]; [simpl in Hfuel; lia|]);
    simpl print_stack_loop.
  - inversion Hvs; subst.
    unfold iterator_neq, iterator_eq, end_iterator, end_. simpl.
    now rewrite app_nil_r.
  - pose proof (slot_nonzero _ _ _ Hs) as Hc0.
    inversion Hvs as [|? v0 ? vs' (n' & Hn' & Hv0) Hvs']; subst.
    rewrite Hs in Hn'. injection Hn' as <-.
    unfold iterator_neq, iterator_eq, end_iterator, end_.
    cbn [current]. destruct (N.eqb_spec c 0) as [|_]; [contradiction|].
    change (negb false) with true. cbv iota.
    unfold iterator_deref, iterator_incr. cbn [current].
    rewrite (bind_step _ _ _ _ _ (value_slot _ _ _ Hs)).
    rewrite (bind_step _ _ _ _ _
               (bind_step _ _ _ _ _ (next_slot _ _ _ Hs))).
    unfold ret. simpl List.length in Hfuel.
    rewrite (IH vs') by (assumption || lia).
    now rewrite <- app_assoc.
Qed.

Lemma print_stack_chain p x l vs fuel :
  chain p x l -> Forall2 (payload p) l vs ->
  (List.length l < fuel)%nat ->
  print_stack fuel x p = Some (Ok (vs, p)).
Proof.
  intros Hc Hvs Hfuel. unfold print_stack, begin_.
  now rewrite (print_stack_loop_chain p x x l Hc vs fuel [] Hvs Hfuel).
Qed.

(** ** Push followed by pop on a live stack *)

(** A push that returns has changed the value and the successor of no
    node but the one it returns. *)
Lemma push_other_nodes X v h p t p' :
  vec_ok p -> _push X v h p = Ok (t, p') ->
  forall y, y <> t ->
    option_map node_value (slot p' y) = option_map node_value (slot p y) /\
    option_map node_next (slot p' y) = option_map node_next (slot p y).
Proof.
  intros Hv H y Hy. destruct (N.eq_dec (free_nodes p) 0) as [Hf|Hf].
  - destruct (push_append_spec _ _ _ _ _ _ Hv Hf H)
      as (nh & Ht & Hh & _ & _ & _ & _ & Hs).
    rewrite Hs. destruct (N.eqb_spec y h) as [->|_].
    + rewrite (Hh Hy). split; reflexivity.
    + destruct (N.eqb_spec y t); [contradiction|]. split; reflexivity.
  - destruct (push_reuse_spec _ _ _ _ _ _ Hv Hf H)
      as (nf & nh & _ & Ht & Hh & _ & _ & _ & Hs).
    rewrite Hs. destruct (N.eqb_spec y t); [contradiction|].
    destruct (N.eqb_spec y h) as [->|_]; [|split; reflexivity].
    rewrite (Hh Hy). split; reflexivity.
Qed.

(** A pop that returns has changed the value and the successor of no
    node but the one it freed. *)
Lemma pop_other_nodes x p t p' :
  vec_ok p -> pop x p = Ok (t, p') ->
  forall y, y <> x ->
    option_map node_value (slot p' y) = option_map node_value (slot p y) /\
    option_map node_next (slot p' y) = option_map node_next (slot p y).
Proof.
  intros Hv H y Hy.
  destruct (pop_spec _ _ _ _ Hv H)
    as (nx & nt & _ & _ & Ht & Hnt & _ & _ & _ & _ & Hs).
  rewrite Hs. destruct (N.eqb_spec y x); [contradiction|].
  destruct (N.eqb_spec y t) as [->|_]; [|split; reflexivity].
  rewrite (Hnt Hy). split; reflexivity.
Qed.

(** [pop] returns the successor of a flagged node whose successor is a
    node. *)
Lemma pop_runs x n p :
  slot p x = Some n -> node_isHead n = true ->
  slot p (node_next n) <> None ->
  exists p', pop x p = Ok (node_next n, p').
Proof.
  intros Hn Hh Hnx.
  pose proof (slot_nonzero _ _ _ Hn) as Hx.
  unfold pop.
  rewrite (bind_step _ _ _ _ _ (isHead_slot _ _ _ Hn)). rewrite Hh.
  change (negb true) with false. cbv iota.
  rewrite (bind_step _ _ p (empty p x) p eq_refl).
  unfold empty, end_.
  destruct (N.eqb_spec x 0) as [|_]; [contradiction|].
  rewrite (bind_step _ _ _ _ _ (next_slot _ _ _ Hn)).
  rewrite (bind_step _ _ p (free_nodes p) p eq_refl).
  unfold set_next, set_value, set_isHead.
  rewrite (bind_step _ _ _ _ _ (node_store_slot _ _ _ _ Hn)).
  set (p1 := store p x _).
  assert (Hs1 : forall y, slot p1 y <> None <-> slot p y <> None).
  { intros y. unfold p1. rewrite slot_store by (rewrite Hn; discriminate).
    destruct (N.eqb_spec y x) as [->|]; [|tauto].
    rewrite Hn. split; discriminate. }
  clearbody p1.
  rewrite (bind_step _ _ p1 tt (mk_pool (pool p1) x) eq_refl).
  set (p2 := mk_pool (pool p1) x).
  assert (Hs2 : forall y, slot p2 y <> None <-> slot p y <> None)
    by exact Hs1.
  clearbody p2.
  destruct (slot p2 x) as [n2|] eqn:E2;
    [|exfalso; apply (proj2 (Hs2 x)); [rewrite Hn; discriminate|assumption]].
  rewrite (bind_step _ _ _ _ _ (node_store_slot _ _ _ _ E2)).
  set (p3 := store p2 x _).
  assert (Hs3 : forall y, slot p3 y <> None <-> slot p y <> None).
  { intros y. unfold p3. rewrite slot_store by (rewrite E2; discriminate).
    destruct (N.eqb_spec y x) as [->|]; [|apply Hs2].
    rewrite Hn. split; discriminate. }
  clearbody p3.
  destruct (slot p3 (node_next n)) as [n3|] eqn:E3;
    [|exfalso; now apply (proj2 (Hs3 (node_next n)))].
  rewrite (bind_step _ _ _ _ _ (node_store_slot _ _ _ _ E3)).
  set (p4 := store p3 (node_next n) _).
  assert (Hs4 : slot p4 x <> None).
  { unfold p4. rewrite slot_store by (rewrite E3; discriminate).
    destruct (x =? node_next n); [discriminate|].
    apply Hs3. rewrite Hn. discriminate. }
  destruct (slot p4 x) as [n4|] eqn:E4; [|congruence].
  rewrite (bind_step _ _ _ _ _ (node_store_slot _ _ _ _ E4)).
  eexists. reflexivity.
Qed.

Lemma payload_agree p p' l vs :
  (forall y, In y l ->
     option_map node_value (slot p' y) = option_map node_value (slot p y)) ->
  Forall2 (payload p) l vs -> Forall2 (payload p') l vs.
Proof.
  intros Ha Hf. induction Hf as [|y v0 l vs (n & Hn & Hv0) Hf IH];
    constructor.
  - specialize (Ha y (or_introl eq_refl)). rewrite Hn in Ha.
    destruct (slot p' y) as [n'|] eqn:E; [|discriminate].
    exists n'. split; [exact E|]. simpl in Ha. congruence.
  - apply IH. intros z Hz. apply Ha. now right.
Qed.

(** On a live stack whose head [h] is a node, a push followed by the
    pop of the handle it returned gives back [h], the same stack with
    the same values, and the invariant. *)
Lemma push_then_pop_restores X v h p t p1 s1 rest s2 fl :
  pool_inv p (s1 ++ (h :: rest) :: s2) fl ->
  _push X v h p = Ok (t, p1) ->
  exists p2,
    pop t p1 = Ok (h, p2) /\
    pool_inv p2 (s1 ++ (h :: rest) :: s2) (t :: tl fl) /\
    forall vs, Forall2 (payload p) (h :: rest) vs ->
               Forall2 (payload p2) (h :: rest) vs.
Proof.
  intros Hinv Hpush.
  pose proof (push_keeps_inv _ _ _ _ _ _ _ _ _ _ Hinv Hpush) as Hinv1.
  pose proof (inv_vec _ _ _ Hinv) as Hv.
  pose proof (inv_vec _ _ _ Hinv1) as Hv1.
  pose proof (inv_stacks _ _ _ Hinv1) as Hst.
  apply Forall_app in Hst as [_ Hst].
  apply Forall_cons_iff in Hst as [(Hc & (nt & Hnt & Hflag) & _) _].
  apply chain_cons_inv in Hc as (_ & nt' & Hnt' & Hc).
  rewrite Hnt in Hnt'. injection Hnt' as <-.
  apply chain_cons_inv in Hc as (Hnext & nh & Hnh & _).
  assert (Hsucc : slot p1 (node_next nt) <> None) by (rewrite Hnh; discriminate).
  destruct (pop_runs t nt p1 Hnt Hflag Hsucc) as (p2 & Hpop).
  rewrite <- Hnext in Hpop.
  exists p2. split; [assumption|].
  destruct (pop_keeps_inv _ _ _ _ _ _ _ _ Hinv1 Hpop) as (rest' & E & Hinv2).
  injection E as <-. split; [assumption|].
  intros vs Hvs.
  pose proof (inv_disjoint _ _ _ Hinv1) as Hnd.
  apply (Permutation_NoDup (focus_perm _ _ _ _)) in Hnd. simpl in Hnd.
  assert (Hne : forall y, In y (h :: rest) -> y <> t).
  { intros y Hy ->. inversion Hnd as [|? ? Hnot _]; subst.
    apply Hnot. destruct Hy as [E|Hy]; [left; exact E|right].
    apply in_app_iff. now left. }
  apply payload_agree with p; [|assumption].
  intros y Hy. specialize (Hne y Hy).
  rewrite (proj1 (pop_other_nodes _ _ _ _ Hv1 Hpop y Hne)).
  apply (push_other_nodes _ _ _ _ _ _ Hv Hpush y Hne).
Qed.

(** ** The properties of the specification *)

(** C1.  [push(const T&, head)] hands [_push] an lvalue of type
    [const T], so [X] is deduced as [const T&], which is not
    [value_type]: whatever the value, the head and the pool, this
    overload leaves by [NotEqualTypeException] and never pushes.  The
    overload [push(T&&, head)] passes the test and never throws that
    exception. *)
Theorem push_lvalue_always_rejected :
  (forall (v : T) (h : N) (p : stack_pool),
      push_lvalue v h p = Throw NotEqualTypeException) /\
  (forall (v : T) (h : N) (p : stack_pool),
      push_rvalue v h p <> Throw NotEqualTypeException).
Proof.
  split.
  - intros v h p. unfold push_lvalue, _push.
    assert (Hx : deduce_forwarding true lvalue = mk_type true lvalue_ref)
      by reflexivity.
    assert (Hs : is_same (mk_type true lvalue_ref) value_type = false)
      by reflexivity.
    rewrite Hx, Hs. reflexivity.
  - intros v h p H. apply push_rvalue_throws in H.
    destruct H as [H|[H|H]]; discriminate.
Qed.

(** C2.  Popping the sentinel handle evaluates [isHead(0)] first: the
    range check lets [0] through and the vector is indexed at
    [SIZE_MAX].  The call ends in this out-of-bounds access, not in
    [EmptyStackException]. *)
Theorem pop_of_sentinel_indexes_out_of_bounds (p : stack_pool) :
  vec_ok p ->
  pop (end_ p) p = OutOfBounds /\
  pop (end_ p) p <> Throw EmptyStackException.
Proof.
  intros Hv. unfold end_. rewrite pop_sentinel by assumption.
  split; [reflexivity|discriminate].
Qed.

(** C3.  The accessors raise no range error for the sentinel, nor for
    a handle above the number of nodes but within the reserved
    capacity: [node] compares with [capacity()] only, and the vector
    is then indexed outside its elements. *)
Theorem accessors_skip_range_error (p : stack_pool) (h : N) :
  vec_ok p ->
  h = 0 \/ vec_size (pool p) < h <= capacity p ->
  value h p = OutOfBounds /\ next h p = OutOfBounds /\
  isHead h p = OutOfBounds.
Proof.
  intros Hv Hh.
  assert (Hl : node_load h p = OutOfBounds).
  { destruct Hh as [->|Hh].
    - now apply node_load_sentinel.
    - now apply node_load_reserved. }
  unfold value, next, isHead.
  repeat split; now apply bind_out_of_bounds.
Qed.

(** C4.  [_push] assigns [isHead(head) = false] and [pop] assigns
    [isHead(t) = true] without testing for the sentinel.  A push on
    an empty stack and a pop of a one-node stack therefore index the
    vector with handle [0], and end in an out-of-bounds access. *)
Theorem sentinel_is_used_as_index (p : stack_pool) :
  vec_ok p ->
  (forall v, slot p (free_nodes p) <> None ->
             push_rvalue v (new_stack p) p = OutOfBounds) /\
  (forall v u p1, free_nodes p = 0 ->
             emplace_back (mk_node v 0 true) p = Ok (u, p1) ->
             push_rvalue v (new_stack p) p = OutOfBounds) /\
  (forall x n, slot p x = Some n -> node_isHead n = true ->
             node_next n = end_ p -> pop x p = OutOfBounds).
Proof.
  intros Hv. unfold new_stack, end_. repeat split.
  - intros v Hf. now apply push_sentinel_reuse.
  - intros v u p1 Hf He. now apply push_sentinel_append with u p1.
  - intros x n Hn Hh Hnx. now apply pop_last with n.
Qed.

(** C5.  Head invariant.  Let the pool hold the live stacks
    [s1 ++ (h :: rest) :: s2] and the free list [fl], with every head
    flagged, no other node flagged and no node shared.  After a push
    on [h] that returns [t], the stack is [t :: h :: rest]; after a
    pop of [h] that returns [t], the stack is [rest], whose head is
    [t], and [h] heads the free list.  In both cases the invariant
    holds again: in each live stack exactly the head, which for the
    stack operated on is the returned handle, is flagged, and no
    node of the free list is. *)
Theorem head_invariant_kept p s1 h rest s2 fl :
  pool_inv p (s1 ++ (h :: rest) :: s2) fl ->
  (forall X v t p',
      _push X v h p = Ok (t, p') ->
      pool_inv p' (s1 ++ (t :: h :: rest) :: s2) (tl fl)) /\
  (forall t p',
      pop h p = Ok (t, p') ->
      exists rest',
        rest = t :: rest' /\
        pool_inv p' (s1 ++ (t :: rest') :: s2) (h :: fl)).
Proof.
  intros Hinv. split.
  - intros X v t p' H. now apply push_keeps_inv with X v p.
  - intros t p' H. now apply pop_keeps_inv with p.
Qed.

(** C6.  A sequence of pushes that starts on a new stack returns only
    when it is empty (and then [length] is 0): the first push has the
    sentinel for head, which [_push] uses as an index, so it never
    returns, whatever the overload, the values and the pool. *)
Theorem pushes_on_new_stack_fail X vals p :
  vec_ok p ->
  (vals = [] ->
     push_all X vals (new_stack p) p = Ok (end_ p, p) /\
     forall fuel, length (S fuel) (end_ p) p = Some (Ok (0, p))) /\
  (vals <> [] -> forall r, push_all X vals (new_stack p) p <> Ok r).
Proof.
  intros Hv. split.
  - intros ->. split; reflexivity.
  - destruct vals as [|v vals]; [congruence|]. intros _ r H.
    simpl in H. apply bind_ok in H as (h & p1 & H & _).
    now apply push_sentinel_stuck in H.
Qed.

(** C7.  A push on the sentinel followed by a pop of the handle it
    returns does not return: the push itself does not. *)
Theorem push_then_pop_on_sentinel_fails X v p r :
  vec_ok p -> bind (_push X v (end_ p)) pop p <> Ok r.
Proof.
  intros Hv H. apply bind_ok in H as (t & p1 & H & _).
  now apply push_sentinel_stuck in H.
Qed.

(** The lvalue overload never reaches the free list. *)
Lemma push_lvalue_rejected v h p :
  push_lvalue v h p = Throw NotEqualTypeException.
Proof. reflexivity. Qed.

(** C8.  The free list is not reused by every push.  With a free node
    at the head of the free list, [push(T&&)] on a new stack takes
    that node and then indexes the vector with the sentinel, so it
    ends in an out-of-bounds access; no overload returns a handle from
    a push on a new stack, and [push(const T&)] leaves by
    [NotEqualTypeException] on every head.  In particular, after a pop
    that freed [f], [f] heads the free list and these pushes still do
    not return [f]. *)
Theorem free_slot_not_reused_on_new_stack :
  (forall p v,
      vec_ok p -> slot p (free_nodes p) <> None ->
      push_rvalue v (new_stack p) p = OutOfBounds /\
      (forall X r, _push X v (new_stack p) p <> Ok r) /\
      (forall h, push_lvalue v h p = Throw NotEqualTypeException)) /\
  (forall p0 f t0 p v,
      vec_ok p0 -> pop f p0 = Ok (t0, p) ->
      free_nodes p = f /\ f <> 0 /\
      push_rvalue v (new_stack p) p = OutOfBounds /\
      (forall X r, _push X v (new_stack p) p <> Ok r) /\
      (forall h, push_lvalue v h p = Throw NotEqualTypeException)).
Proof.
  assert (Hgen : forall p v,
      vec_ok p -> slot p (free_nodes p) <> None ->
      push_rvalue v (new_stack p) p = OutOfBounds /\
      (forall X r, _push X v (new_stack p) p <> Ok r) /\
      (forall h, push_lvalue v h p = Throw NotEqualTypeException)).
  { intros p v Hv Hf. unfold new_stack, end_.
    split; [now apply push_sentinel_reuse|].
    split; [intros X r; now apply push_sentinel_stuck|].
    intros h. apply push_lvalue_rejected. }
  split; [exact Hgen|].
  intros p0 f t0 p v Hv H.
  destruct (pop_spec _ _ _ _ Hv H)
    as (nx & nt & Hnx & _ & _ & _ & _ & Hv' & Hf & _ & Hs).
  split; [exact Hf|]. split; [exact (slot_nonzero _ _ _ Hnx)|].
  apply Hgen; [exact Hv'|].
  rewrite Hf, Hs, N.eqb_refl. discriminate.
Qed.

(** C9.  [free_stack] on a handle other than the sentinel never
    returns: a pop that returns has assigned [isHead] of its result,
    so its result is a node, and the pop of the last node indexes
    the vector with the sentinel.  The loop can only end in an
    exception or an out-of-bounds access. *)
Theorem free_stack_never_returns fuel x p r :
  vec_ok p -> x <> end_ p -> free_stack fuel x p <> Some (Ok r).
Proof.
  unfold end_. revert x p.
  induction fuel as [|fuel IH]; intros x p Hv Hx; simpl.
  - discriminate.
  - unfold end_. destruct (N.eqb_spec x 0) as [|_]; [contradiction|].
    change (negb false) with true. cbv iota.
    destruct (pop x p) as [[x' p']| | |] eqn:Hp; try discriminate.
    destruct (pop_spec _ _ _ _ Hv Hp)
      as (nx & nt & _ & _ & _ & _ & Hx' & Hv' & _).
    now apply IH.
Qed.

(** C10.  [empty] compares its argument with the sentinel and
    nothing else: its result is the same in every pool, it is [true]
    exactly for handle [0], and it is a total function that reads no
    node. *)
Theorem empty_iff_sentinel (p q : stack_pool) (x : N) :
  empty p x = empty q x /\ (empty p x = true <-> x = 0) /\
  (x <> 0 -> empty p x = false).
Proof.
  unfold empty, end_. split; [reflexivity|].
  split; [apply N.eqb_eq|apply N.eqb_neq].
Qed.

(** ** Nodes an operation writes and nodes it leaves alone *)

Lemma push_untouched X v h p t p' :
  vec_ok p -> _push X v h p = Ok (t, p') ->
  forall y, y <> t -> y <> h -> slot p' y = slot p y.
Proof.
  intros Hv H y Hyt Hyh. destruct (N.eq_dec (free_nodes p) 0) as [Hf|Hf].
  - destruct (push_append_spec _ _ _ _ _ _ Hv Hf H)
      as (nh & _ & _ & _ & _ & _ & _ & Hs).
    rewrite Hs. destruct (N.eqb_spec y h); [contradiction|].
    destruct (N.eqb_spec y t); [contradiction|reflexivity].
  - destruct (push_reuse_spec _ _ _ _ _ _ Hv Hf H)
      as (nf & nh & _ & _ & _ & _ & _ & _ & Hs).
    rewrite Hs. destruct (N.eqb_spec y t); [contradiction|].
    destruct (N.eqb_spec y h); [contradiction|reflexivity].
Qed.

Lemma pop_untouched x p t p' :
  vec_ok p -> pop x p = Ok (t, p') ->
  forall y, y <> x -> y <> t -> slot p' y = slot p y.
Proof.
  intros Hv H y Hyx Hyt.
  destruct (pop_spec _ _ _ _ Hv H)
    as (nx & nt & _ & _ & _ & _ & _ & _ & _ & _ & Hs).
  rewrite Hs. destruct (N.eqb_spec y x); [contradiction|].
  destruct (N.eqb_spec y t); [contradiction|reflexivity].
Qed.

(** The node a push returns, and the head it was pushed on. *)
Lemma push_written X v h p t p' :
  vec_ok p -> _push X v h p = Ok (t, p') ->
  t <> 0 /\
  (exists n, slot p' t = Some n /\ node_value n = v /\ node_next n = h /\
             (h <> t -> node_isHead n = true)) /\
  (h <> t -> exists n, slot p' h = Some n /\ node_isHead n = false).
Proof.
  intros Hv H. destruct (N.eq_dec (free_nodes p) 0) as [Hf|Hf].
  - destruct (push_append_spec _ _ _ _ _ _ Hv Hf H)
      as (nh & Ht & Hh & Hself & _ & _ & _ & Hs).
    split; [lia|]. split.
    + rewrite Hs. destruct (N.eqb_spec t h) as [E|E].
      * symmetry in E. rewrite (Hself E). simpl. eexists.
        split; [reflexivity|]. repeat split. congruence.
      * rewrite N.eqb_refl. eexists. split; [reflexivity|].
        repeat split.
    + intros Hne. rewrite Hs, N.eqb_refl. eexists.
      split; reflexivity.
  - destruct (push_reuse_spec _ _ _ _ _ _ Hv Hf H)
      as (nf & nh & _ & Ht & _ & _ & _ & _ & Hs).
    split; [congruence|]. split.
    + rewrite Hs, N.eqb_refl. eexists. split; [reflexivity|].
      repeat split.
    + intros Hne. rewrite Hs.
      destruct (N.eqb_spec h t); [contradiction|].
      rewrite N.eqb_refl. eexists. split; reflexivity.
Qed.

Lemma pop_not_head x n p :
  slot p x = Some n -> node_isHead n = false ->
  pop x p = Throw NotStackHeadException.
Proof.
  intros Hn Hh. unfold pop.
  rewrite (bind_step _ _ _ _ _ (isHead_slot _ _ _ Hn)). rewrite Hh.
  reflexivity.
Qed.

Lemma free_stack_throw fuel x p e :
  x <> 0 -> pop x p = Throw e -> free_stack (S fuel) x p = Some (Throw e).
Proof.
  intros Hx Hp. simpl. unfold end_.
  destruct (N.eqb_spec x 0) as [|_]; [contradiction|].
  change (negb false) with true. cbv iota. now rewrite Hp.
Qed.

Lemma pop_past_capacity x p :
  capacity p < x -> pop x p = Throw RangeCheckingException.
Proof.
  intros Hx. unfold pop, isHead.
  apply bind_throw, bind_throw. now apply node_load_past_capacity.
Qed.

(** ** Chains are duplicate-free and as long as the loops run *)

Lemma chain_functional p x l :
  chain p x l -> forall l', chain p x l' -> l = l'.
Proof.
  induction 1 as [|x n l Hs Hc IH]; intros l' H'.
  - now apply chain_sentinel in H'.
  - inversion H' as [E|x' n' l0 Hs' Hc' E1 E2].
    + subst. rewrite slot_sentinel in Hs. discriminate.
    + subst. rewrite Hs in Hs'. injection Hs' as <-.
      f_equal. now apply IH.
Qed.

Lemma chain_from_member p x l y :
  chain p x l -> In y l ->
  exists l', chain p y l' /\ (List.length l' <= List.length l)%nat.
Proof.
  induction 1 as [|x n l Hs Hc IH]; intros Hy; [contradiction|].
  destruct Hy as [->|Hy].
  - exists (y :: l). split; [now apply chain_link with n|lia].
  - destruct (IH Hy) as (l' & Hc' & Hle). exists l'.
    split; [assumption|simpl; lia].
Qed.

Lemma chain_nodup p x l : chain p x l -> NoDup l.
Proof.
  induction 1 as [|x n l Hs Hc IH]; constructor; [|assumption].
  intros Hin. destruct (chain_from_member _ _ _ _ Hc Hin) as (l' & Hc' & Hle).
  assert (E : x :: l = l')
    by (apply (chain_functional p x); [now apply chain_link with n|assumption]).
  subst l'. simpl in Hle. lia.
Qed.

Lemma chain_length p x l :
  chain p x l -> N.of_nat (List.length l) <= vec_size (pool p).
Proof.
  intros Hc.
  assert (Hnd : NoDup (map N.to_nat l)).
  { apply Finite.Injective_map_NoDup; [|now apply chain_nodup in Hc].
    intros a b. apply N2Nat.inj. }
  assert (Hincl : incl (map N.to_nat l)
                       (seq 1 (N.to_nat (vec_size (pool p))))).
  { intros k Hk. apply in_map_iff in Hk as (y & <- & Hy).
    apply chain_slots in Hc. rewrite Forall_forall in Hc.
    destruct (Hc y Hy) as (n & Hn). apply slot_range in Hn.
    apply in_seq. lia. }
  pose proof (NoDup_incl_length Hnd Hincl) as Hlen.
  rewrite length_map, length_seq in Hlen. lia.
Qed.

Lemma chain_length_small p x l :
  vec_ok p -> chain p x l -> N.of_nat (List.length l) < 2 ^ 64.
Proof.
  intros Hv Hc. apply chain_length in Hc.
  unfold vec_ok, capacity, vec_capacity in Hv.
  pose proof max_size_le as Hmax.
  change (2 ^ 64) with 18446744073709551616. lia.
Qed.

Lemma length_loop_sound p x :
  vec_ok p ->
  forall fuel c acc n p',
    length_loop fuel x (mk_iterator c) acc p = Some (Ok (n, p')) ->
    p' = p /\
    exists l, chain p c l /\ (List.length l < fuel)%nat /\
              n = match l with
                  | [] => acc
                  | _ => (acc + N.of_nat (List.length l)) mod 2 ^ 64
                  end.
Proof.
  intros Hv. induction fuel as [|fuel IH]; intros c acc n p' H;
    [discriminate|].
  simpl in H. unfold iterator_neq, iterator_eq, end_iterator, end_ in H.
  cbn [current] in H. destruct (N.eqb_spec c 0) as [->|Hc].
  - simpl in H. injection H as <- <-. split; [reflexivity|].
    exists []. split; [constructor|]. split; [simpl; lia|reflexivity].
  - change (negb false) with true in H. cbv iota in H.
    destruct (iterator_incr (mk_iterator c) p) as [[it' p1]| | |] eqn:Hi;
      try discriminate.
    unfold iterator_incr in Hi. cbn [current] in Hi.
    apply bind_ok in Hi as (c' & p2 & Hnext & Hret).
    apply next_ok in Hnext as (nc & Hnc & -> & ->); [|assumption].
    apply ret_ok in Hret as [-> ->].
    destruct (IH _ _ _ _ H) as (-> & l & Hl & Hfuel & Hn).
    split; [reflexivity|]. exists (c :: l).
    split; [now apply chain_link with nc|]. split; [simpl; lia|].
    rewrite Hn. unfold size_t_succ. destruct l as [|y l].
    + simpl List.length. reflexivity.
    + rewrite N.Div0.add_mod_idemp_l. f_equal. simpl List.length. lia.
Qed.

Lemma print_stack_loop_sound p x :
  vec_ok p ->
  forall fuel c out vs p',
    print_stack_loop fuel x (mk_iterator c) out p = Some (Ok (vs, p')) ->
    p' = p /\
    exists l ws, chain p c l /\ (List.length l < fuel)%nat /\
                 Forall2 (payload p) l ws /\ vs = out ++ ws.
Proof.
  intros Hv. induction fuel as [|fuel IH]; intros c out vs p' H;
    [discriminate|].
  simpl in H. unfold iterator_neq, iterator_eq, end_iterator, end_ in H.
  cbn [current] in H. destruct (N.eqb_spec c 0) as [->|Hc].
  - simpl in H. injection H as <- <-. split; [reflexivity|].
    exists [], []. split; [constructor|]. split; [simpl; lia|].
    split; [constructor|now rewrite app_nil_r].
  - change (negb false) with true in H. cbv iota in H.
    match type of H with
    | match ?body with _ => _ end = _ =>
        destruct body as [[[v it'] p1]| | |] eqn:Hi; try discriminate
    end.
    apply bind_ok in Hi as (v0 & p2 & Hval & Hi).
    unfold iterator_deref in Hval. cbn [current] in Hval.
    apply value_ok in Hval as (nc & Hnc & -> & ->); [|assumption].
    apply bind_ok in Hi as (it0 & p3 & Hinc & Hret).
    unfold iterator_incr in Hinc. cbn [current] in Hinc.
    apply bind_ok in Hinc as (c' & p4 & Hnext & Hret').
    apply next_ok in Hnext as (nc' & Hnc' & -> & ->); [|assumption].
    rewrite Hnc in Hnc'. injection Hnc' as <-.
    apply ret_ok in Hret' as [-> ->].
    apply ret_ok in Hret as [E ->]. injection E as -> ->.
    destruct (IH _ _ _ _ H) as (-> & l & ws & Hl & Hfuel & Hws & ->).
    split; [reflexivity|]. exists (c :: l), (node_value nc :: ws).
    split; [now apply chain_link with nc|]. split; [simpl; lia|].
    split.
    + constructor; [|assumption]. exists nc. split; [assumption|reflexivity].
    + now rewrite <- app_assoc.
Qed.

(** The loops on a node that is its own successor. *)
Lemma length_loop_self p x c n :
  slot p c = Some n -> node_next n = c ->
  forall fuel acc, length_loop fuel x (mk_iterator c) acc p = None.
Proof.
  intros Hn Hnx. pose proof (slot_nonzero _ _ _ Hn) as Hc.
  induction fuel as [|fuel IH]; intros acc; [reflexivity|].
  simpl. unfold iterator_neq, iterator_eq, end_iterator, end_.
  cbn [current]. destruct (N.eqb_spec c 0) as [|_]; [contradiction|].
  change (negb false) with true. cbv iota.
  unfold iterator_incr. cbn [current].
  rewrite (bind_step _ _ _ _ _ (next_slot _ _ _ Hn)).
  unfold ret. rewrite Hnx. apply IH.
Qed.

Lemma print_stack_loop_self p x c n :
  slot p c = Some n -> node_next n = c ->
  forall fuel out, print_stack_loop fuel x (mk_iterator c) out p = None.
Proof.
  intros Hn Hnx. pose proof (slot_nonzero _ _ _ Hn) as Hc.
  induction fuel as [|fuel IH]; intros out; [reflexivity|].
  simpl. unfold iterator_neq, iterator_eq, end_iterator, end_.
  cbn [current]. destruct (N.eqb_spec c 0) as [|_]; [contradiction|].
  change (negb false) with true. cbv iota.
  unfold iterator_deref, iterator_incr. cbn [current].
  rewrite (bind_step _ _ _ _ _ (value_slot _ _ _ Hn)).
  rewrite (bind_step _ _ _ _ _
             (bind_step _ _ _ _ _ (next_slot _ _ _ Hn))).
  unfold ret. rewrite Hnx. apply IH.
Qed.

(** ** A run of pushes on a live stack *)

Lemma payload_same_value p p' y w :
  option_map node_value (slot p' y) = option_map node_value (slot p y) ->
  payload p y w -> payload p' y w.
Proof.
  intros E (n & Hn & Hw). rewrite Hn in E.
  destruct (slot p' y) as [n'|] eqn:E'; [|discriminate].
  exists n'. split; [exact E'|]. simpl in E. congruence.
Qed.

Lemma push_all_live X vals :
  forall p s1 h rest s2 fl t p',
    pool_inv p (s1 ++ (h :: rest) :: s2) fl ->
    push_all X vals h p = Ok (t, p') ->
    exists new fl',
      pool_inv p' (s1 ++ (new ++ h :: rest) :: s2) fl' /\
      hd_error (new ++ h :: rest) = Some t /\
      Forall2 (payload p') new (rev vals) /\
      forall y w, In y (h :: rest) -> payload p y w -> payload p' y w.
Proof.
  induction vals as [|v vals IH]; intros p s1 h rest s2 fl t p' Hinv H.
  - apply ret_ok in H as [-> ->]. exists [], fl.
    split; [exact Hinv|]. split; [reflexivity|].
    split; [constructor|]. intros y w _ Hw. exact Hw.
  - simpl in H. apply bind_ok in H as (t1 & p1 & Hpush & H).
    pose proof (inv_vec _ _ _ Hinv) as Hv.
    pose proof (push_keeps_inv _ _ _ _ _ _ _ _ _ _ Hinv Hpush) as Hinv1.
    destruct (IH _ _ _ _ _ _ _ _ Hinv1 H)
      as (new & fl' & Hinv' & Hhd & Hnew & Hkeep).
    pose proof (inv_disjoint _ _ _ Hinv1) as Hnd.
    apply (Permutation_NoDup (focus_perm _ _ _ _)) in Hnd. simpl in Hnd.
    assert (Hne : forall y, In y (h :: rest) -> y <> t1).
    { intros y Hy ->. inversion Hnd as [|? ? Hnot _]; subst.
      apply Hnot. destruct Hy as [E|Hy]; [left; exact E|right].
      apply in_app_iff. now left. }
    destruct (push_written _ _ _ _ _ _ Hv Hpush)
      as (_ & (n & Hn & Hval & _) & _).
    exists (new ++ [t1]), fl'. rewrite <- app_assoc. simpl app.
    split; [exact Hinv'|]. split; [exact Hhd|]. split.
    + simpl rev. apply Forall2_app; [exact Hnew|].
      constructor; [|constructor].
      apply Hkeep; [now left|]. exists n. split; assumption.
    + intros y w Hy Hw. apply Hkeep; [now right|].
      apply payload_same_value with p; [|exact Hw].
      apply (push_other_nodes _ _ _ _ _ _ Hv Hpush y (Hne y Hy)).
Qed.

Lemma payload_pointwise p p' l vs :
  (forall y w, In y l -> payload p y w -> payload p' y w) ->
  Forall2 (payload p) l vs -> Forall2 (payload p') l vs.
Proof.
  intros Hk Hf. induction Hf as [|y w l vs Hw Hf IH]; constructor.
  - apply Hk; [now left|assumption].
  - apply IH. intros z u Hz Hu. apply Hk; [now right|assumption].
Qed.

(** ** reserve *)

Lemma reserve_facts reserve_alloc n p u p' :
  vec_ok p -> reserve reserve_alloc n p = Ok (u, p') ->
  vec_ok p' /\ n <= capacity p' /\ capacity p <= capacity p' /\
  free_nodes p' = free_nodes p /\ elems (pool p') = elems (pool p).
Proof.
  intros Hv H. unfold reserve in H. cbv zeta in H.
  unfold vec_ok, capacity, vec_capacity in *.
  destruct (N.ltb_spec max_size n) as [|Hmax]; [discriminate|].
  destruct (N.ltb_spec (vec_size (pool p) + spare (pool p)) n)
    as [Hlt|Hge].
  - destruct (reserve_alloc n) as [k|]; [|discriminate].
    pose proof (N.le_min_r (n + k) max_size) as Hmin.
    assert (Hmin' : n <= N.min (n + k) max_size)
      by (apply N.min_glb; lia).
    set (c := N.min (n + k) max_size) in *. clearbody c.
    injection H as <- <-. unfold vec_size in *. simpl.
    repeat split; lia.
  - injection H as <- <-. repeat split; try lia.
Qed.

Lemma pool_inv_same_nodes p p' stacks fl :
  vec_ok p' -> free_nodes p' = free_nodes p ->
  (forall y, slot p' y = slot p y) ->
  pool_inv p stacks fl -> pool_inv p' stacks fl.
Proof.
  intros Hv' Hf Hs [_ Hst [Hfc Hff] Hnd]. split.
  - exact Hv'.
  - apply live_stacks_agree with p; [|assumption]. intros y _. apply Hs.
  - split.
    + rewrite Hf. apply chain_agree with p; [|assumption].
      intros y _. apply Hs.
    + apply flags_agree with p; [|assumption]. intros y _. apply Hs.
  - assumption.
Qed.

(** ** What holds besides *)

(** X1.  Within the nodes of the vector the accessors return the field
    of the node and leave the pool as it is; above the capacity they
    throw [RangeCheckingException]. *)
Theorem accessors_in_range (p : stack_pool) (h : N) :
  (forall n, slot p h = Some n ->
     value h p = Ok (node_value n, p) /\ next h p = Ok (node_next n, p) /\
     isHead h p = Ok (node_isHead n, p)) /\
  (capacity p < h ->
     value h p = Throw RangeCheckingException /\
     next h p = Throw RangeCheckingException /\
     isHead h p = Throw RangeCheckingException).
Proof.
  split.
  - intros n Hn. repeat split.
    + now apply value_slot.
    + now apply next_slot.
    + now apply isHead_slot.
  - intros Hh. apply node_load_past_capacity in Hh.
    unfold value, next, isHead. repeat split; now apply bind_throw.
Qed.

(** X2.  The overload for rvalues never throws
    [NotEqualTypeException]: it can only throw the range error of
    [node] and the two exceptions of a vector that cannot grow. *)
Theorem push_rvalue_exceptions v h p e :
  push_rvalue v h p = Throw e ->
  e <> NotEqualTypeException /\
  (e = RangeCheckingException \/ e = length_error \/ e = bad_alloc).
Proof.
  intros H. apply push_rvalue_throws in H.
  split; [|assumption].
  destruct H as [->|[->| ->]]; discriminate.
Qed.

(** X3.  When [next] leads from [x] through the handles [l] to the
    sentinel, [length(x)] returns the number of these handles and
    [print_stack(x)] writes their values in this order, both leaving
    the pool as it is, as soon as the bound on the iterations exceeds
    that number. *)
Theorem traversal_of_chain p x l vs fuel :
  chain p x l -> Forall2 (payload p) l vs ->
  N.of_nat (List.length l) < 2 ^ 64 ->
  (List.length l < fuel)%nat ->
  length fuel x p = Some (Ok (N.of_nat (List.length l), p)) /\
  print_stack fuel x p = Some (Ok (vs, p)).
Proof.
  intros Hc Hvs Hl Hfuel. split.
  - now apply length_chain.
  - now apply print_stack_chain with l.
Qed.

(** X4.  On a live stack whose head [h] is a node, pushing a value and
    then popping the returned handle gives back [h]; the stack has the
    handles, the length and the values it had, and the head invariant
    holds. *)
Theorem push_then_pop_on_live_stack X v h p t p1 s1 rest s2 fl vs fuel :
  pool_inv p (s1 ++ (h :: rest) :: s2) fl ->
  Forall2 (payload p) (h :: rest) vs ->
  N.of_nat (List.length (h :: rest)) < 2 ^ 64 ->
  (List.length (h :: rest) < fuel)%nat ->
  _push X v h p = Ok (t, p1) ->
  exists p2,
    pop t p1 = Ok (h, p2) /\
    pool_inv p2 (s1 ++ (h :: rest) :: s2) (t :: tl fl) /\
    returned (length fuel h p) = Some (N.of_nat (List.length (h :: rest))) /\
    returned (length fuel h p2) = Some (N.of_nat (List.length (h :: rest))) /\
    returned (print_stack fuel h p) = Some vs /\
    returned (print_stack fuel h p2) = Some vs.
Proof.
  intros Hinv Hvs Hl Hfuel Hpush.
  destruct (push_then_pop_restores _ _ _ _ _ _ _ _ _ _ Hinv Hpush)
    as (p2 & Hpop & Hinv2 & Hpay).
  exists p2. split; [assumption|]. split; [assumption|].
  assert (Hc : chain p h (h :: rest)).
  { pose proof (inv_stacks _ _ _ Hinv) as Hst.
    apply Forall_app in Hst as [_ Hst].
    apply Forall_cons_iff in Hst as [(Hc & _) _]. exact Hc. }
  assert (Hc2 : chain p2 h (h :: rest)).
  { pose proof (inv_stacks _ _ _ Hinv2) as Hst.
    apply Forall_app in Hst as [_ Hst].
    apply Forall_cons_iff in Hst as [(Hc2 & _) _]. exact Hc2. }
  rewrite (length_chain p h _ fuel Hc Hl Hfuel).
  rewrite (length_chain p2 h _ fuel Hc2 Hl Hfuel).
  rewrite (print_stack_chain p h _ vs fuel Hc Hvs Hfuel).
  rewrite (print_stack_chain p2 h _ vs fuel Hc2 (Hpay vs Hvs) Hfuel).
  repeat split; reflexivity.
Qed.

(** X5.  A handle that stopped being a head is refused.  After a pop
    of [x] that returned, [x] is a free node: a second [pop(x)], and
    [free_stack(x)], leave by [NotStackHeadException].  After a push on
    [h] that returned another handle, [h] lies under the new head:
    [pop(h)] and [free_stack(h)] leave by [NotStackHeadException]. *)
Theorem stale_heads_are_rejected p :
  vec_ok p ->
  (forall x t p' fuel,
      pop x p = Ok (t, p') ->
      pop x p' = Throw NotStackHeadException /\
      free_stack (S fuel) x p' = Some (Throw NotStackHeadException)) /\
  (forall X v h t p' fuel,
      _push X v h p = Ok (t, p') -> h <> t ->
      pop h p' = Throw NotStackHeadException /\
      free_stack (S fuel) h p' = Some (Throw NotStackHeadException)).
Proof.
  intros Hv. split.
  - intros x t p' fuel H.
    destruct (pop_spec _ _ _ _ Hv H)
      as (nx & nt & Hnx & _ & _ & _ & _ & _ & _ & _ & Hs).
    assert (Hx : slot p' x = Some (mk_node minus_one (free_nodes p) false))
      by (now rewrite Hs, N.eqb_refl).
    assert (Hp : pop x p' = Throw NotStackHeadException)
      by (now apply pop_not_head with (mk_node minus_one (free_nodes p) false)).
    split; [exact Hp|].
    apply free_stack_throw; [|exact Hp]. now apply slot_nonzero in Hnx.
  - intros X v h t p' fuel H Hne.
    destruct (push_written _ _ _ _ _ _ Hv H) as (_ & _ & Hh).
    destruct (Hh Hne) as (n & Hn & Hflag).
    assert (Hp : pop h p' = Throw NotStackHeadException)
      by (now apply pop_not_head with n).
    split; [exact Hp|].
    apply free_stack_throw; [|exact Hp]. now apply slot_nonzero in Hn.
Qed.

(** X6.  A handle above the capacity is refused by the range check of
    [node] wherever it is dereferenced first: [pop] and [free_stack]
    leave by [RangeCheckingException]; [length] and [print_stack], being
    [noexcept], end in [std::terminate]; a push of an rvalue on such a
    head leaves by [RangeCheckingException] when it reuses a free node
    or appends within the reserved capacity. *)
Theorem handles_past_capacity_are_rejected p x :
  capacity p < x ->
  pop x p = Throw RangeCheckingException /\
  (forall fuel,
      free_stack (S fuel) x p = Some (Throw RangeCheckingException) /\
      length (S fuel) x p = Some Terminate /\
      print_stack (S fuel) x p = Some Terminate) /\
  (forall v,
      slot p (free_nodes p) <> None \/
      (free_nodes p = 0 /\ 0 < spare (pool p)) ->
      push_rvalue v x p = Throw RangeCheckingException).
Proof.
  intros Hx.
  assert (Hx0 : x <> 0) by lia.
  assert (Hload : node_load x p = Throw RangeCheckingException)
    by (now apply node_load_past_capacity).
  assert (Hpop : pop x p = Throw RangeCheckingException)
    by (now apply pop_past_capacity).
  split; [exact Hpop|]. split.
  - intros fuel. split; [now apply free_stack_throw|].
    unfold length, print_stack. simpl.
    unfold iterator_neq, iterator_eq, end_iterator, end_, begin_.
    cbn [current]. destruct (N.eqb_spec x 0) as [|_]; [contradiction|].
    change (negb false) with true. cbv iota.
    unfold iterator_incr, iterator_deref, next, value. cbn [current].
    rewrite (bind_throw _ _ _ _ (bind_throw _ _ _ _ Hload)).
    rewrite (bind_throw _ _ _ _ (bind_throw _ _ _ _ Hload)).
    split; reflexivity.
  - intros v [Hf|[Hf Hsp]].
    + destruct (push_reuse_prefix v x p Hf) as (p3 & -> & _ & Hc & _).
      apply bind_throw. unfold set_isHead, node_store.
      rewrite Hc. destruct (N.ltb_spec (capacity p) x); [reflexivity|lia].
    + unfold push_rvalue, _push.
      change (is_same (deduce_forwarding false xvalue) value_type) with true.
      change (negb true) with false. cbv iota.
      rewrite (bind_step _ _ p (free_nodes p) p eq_refl).
      rewrite (bind_step _ _ p (empty p (free_nodes p)) p eq_refl).
      unfold empty, end_. rewrite Hf.
      change (negb (0 =? 0)) with false. cbv iota.
      unfold emplace_back at 1. unfold bind at 1.
      destruct (N.ltb_spec 0 (spare (pool p))) as [_|]; [|lia].
      apply bind_throw. unfold set_isHead, node_store.
      assert (Hcap : capacity
                (mk_pool (mk_vector (elems (pool p) ++
                                     [mk_node v x true])
                                    (spare (pool p) - 1))
                         (free_nodes p)) = capacity p).
      { unfold capacity, vec_capacity, vec_size. simpl.
        rewrite length_app. simpl. lia. }
      rewrite Hcap.
      destruct (N.ltb_spec (capacity p) x); [reflexivity|lia].
Qed.

(** X7.  What a push and a pop leave in the nodes they write.  The
    handle a push returns is never the sentinel, and reading it back
    gives the pushed value and, as successor, the head it was pushed
    on.  After a pop of [x], [x] holds the debug value, its successor
    is the previous free-list head, and [x] is the free-list head. *)
Theorem push_and_pop_write p :
  vec_ok p ->
  (forall X v h t p',
      _push X v h p = Ok (t, p') ->
      t <> 0 /\ value t p' = Ok (v, p') /\ next t p' = Ok (h, p') /\
      (h <> t -> isHead t p' = Ok (true, p') /\
                 isHead h p' = Ok (false, p'))) /\
  (forall x t p',
      pop x p = Ok (t, p') ->
      value x p' = Ok (minus_one, p') /\
      next x p' = Ok (free_nodes p, p') /\
      isHead x p' = Ok (false, p') /\
      free_nodes p' = x /\
      (t <> x -> isHead t p' = Ok (true, p'))).
Proof.
  intros Hv. split.
  - intros X v h t p' H.
    destruct (push_written _ _ _ _ _ _ Hv H)
      as (Ht & (n & Hn & Hval & Hnx & Hflag) & Hh).
    split; [exact Ht|].
    split; [rewrite (value_slot _ _ _ Hn); now rewrite Hval|].
    split; [rewrite (next_slot _ _ _ Hn); now rewrite Hnx|].
    intros Hne. split.
    + rewrite (isHead_slot _ _ _ Hn). now rewrite (Hflag Hne).
    + destruct (Hh Hne) as (nh & Hnh & Hfh).
      rewrite (isHead_slot _ _ _ Hnh). now rewrite Hfh.
  - intros x t p' H.
    destruct (pop_spec _ _ _ _ Hv H)
      as (nx & nt & _ & _ & _ & _ & _ & _ & Hf & _ & Hs).
    assert (Hx : slot p' x = Some (mk_node minus_one (free_nodes p) false))
      by (now rewrite Hs, N.eqb_refl).
    split; [now rewrite (value_slot _ _ _ Hx)|].
    split; [now rewrite (next_slot _ _ _ Hx)|].
    split; [now rewrite (isHead_slot _ _ _ Hx)|].
    split; [exact Hf|].
    intros Hne.
    assert (Ht : slot p' t =
                 Some (mk_node (node_value nt) (node_next nt) true)).
    { rewrite Hs. destruct (N.eqb_spec t x); [contradiction|].
      now rewrite N.eqb_refl. }
    now rewrite (isHead_slot _ _ _ Ht).
Qed.

(** X8.  Isolation of the stacks.  A push on, or a pop of, the head of
    one live stack leaves every node of every other live stack exactly
    as it was (value, successor and flag), as well as the nodes of that
    stack below its head for a push, and below the new head for a pop.
    A pop also leaves the previous free nodes as they were. *)
Theorem other_stacks_untouched p s1 h rest s2 fl :
  pool_inv p (s1 ++ (h :: rest) :: s2) fl ->
  (forall X v t p',
      _push X v h p = Ok (t, p') ->
      forall y, In y (rest ++ concat s1 ++ concat s2) ->
                slot p' y = slot p y) /\
  (forall t p',
      pop h p = Ok (t, p') ->
      forall y, In y (tl rest ++ concat s1 ++ concat s2 ++ fl) ->
                slot p' y = slot p y).
Proof.
  intros Hinv. pose proof (inv_vec _ _ _ Hinv) as Hv. split.
  - intros X v t p' H y Hy.
    pose proof (push_keeps_inv _ _ _ _ _ _ _ _ _ _ Hinv H) as Hinv'.
    pose proof (inv_disjoint _ _ _ Hinv') as Hnd.
    apply (Permutation_NoDup (focus_perm _ _ _ _)) in Hnd. simpl in Hnd.
    destruct (nodup_two _ _ _ Hnd) as [_ Hother].
    assert (Hin : In y (rest ++ tl fl ++ concat s1 ++ concat s2))
      by (rewrite !in_app_iff in *; tauto).
    destruct (Hother y Hin) as [Hyt Hyh].
    now apply (push_untouched _ _ _ _ _ _ Hv H).
  - intros t p' H y Hy.
    destruct (pop_keeps_inv _ _ _ _ _ _ _ _ Hinv H)
      as (rest' & -> & Hinv').
    simpl tl in Hy.
    pose proof (inv_disjoint _ _ _ Hinv) as Hnd.
    apply (Permutation_NoDup (focus_perm _ _ _ _)) in Hnd. simpl in Hnd.
    destruct (nodup_two _ _ _ Hnd) as [_ Hother].
    assert (Hin : In y (rest' ++ fl ++ concat s1 ++ concat s2))
      by (rewrite !in_app_iff in *; tauto).
    destruct (Hother y Hin) as [Hyh Hyt].
    now apply (pop_untouched _ _ _ _ Hv H).
Qed.

(** X9.  The vector only grows, and by one node at a time.  A push
    that finds the free list empty appends one node and returns the
    new size as handle; a push that finds a free node, and every pop,
    keep the size.  Every handle that was a node before is a node
    after. *)
Theorem storage_only_grows p :
  vec_ok p ->
  (forall X v h t p',
      _push X v h p = Ok (t, p') ->
      vec_ok p' /\
      vec_size (pool p') =
        (if free_nodes p =? 0 then vec_size (pool p) + 1
         else vec_size (pool p)) /\
      t = (if free_nodes p =? 0 then vec_size (pool p') else free_nodes p) /\
      forall y, slot p y <> None -> slot p' y <> None) /\
  (forall x t p',
      pop x p = Ok (t, p') ->
      vec_ok p' /\ vec_size (pool p') = vec_size (pool p) /\
      forall y, slot p y <> None <-> slot p' y <> None).
Proof.
  intros Hv. split.
  - intros X v h t p' H.
    destruct (N.eqb_spec (free_nodes p) 0) as [Hf|Hf].
    + destruct (push_append_spec _ _ _ _ _ _ Hv Hf H)
        as (nh & Ht & _ & _ & Hv' & _ & Hsz & Hs).
      split; [exact Hv'|]. split; [exact Hsz|].
      split; [congruence|].
      intros y Hy. rewrite Hs.
      destruct (y =? h); [discriminate|].
      destruct (y =? t); [discriminate|exact Hy].
    + destruct (push_reuse_spec _ _ _ _ _ _ Hv Hf H)
        as (nf & nh & _ & Ht & _ & Hv' & _ & Hsz & Hs).
      split; [exact Hv'|]. split; [exact Hsz|]. split; [exact Ht|].
      intros y Hy. rewrite Hs.
      destruct (y =? t); [discriminate|].
      destruct (y =? h); [discriminate|exact Hy].
  - intros x t p' H.
    destruct (pop_spec _ _ _ _ Hv H)
      as (nx & nt & Hnx & _ & Ht & Hnt & _ & Hv' & _ & Hsz & Hs).
    split; [exact Hv'|]. split; [exact Hsz|].
    intros y. rewrite Hs.
    destruct (N.eqb_spec y x) as [->|Hyx].
    + rewrite Hnx. split; discriminate.
    + destruct (N.eqb_spec y t) as [->|Hyt]; [|tauto].
      assert (Hne : t <> x) by congruence.
      rewrite (Hnt Hne). split; discriminate.
Qed.

(** X10.  [length] and [print_stack] return only on a chain.  When
    [length(x)] returns [n], the pool is unchanged, following [next]
    from [x] reaches the sentinel, and [n] is the number of nodes on
    the way, none of them visited twice; when [print_stack(x)] returns,
    it has written the values of exactly these nodes, in order. *)
Theorem traversal_returns_only_on_chain p :
  vec_ok p ->
  (forall fuel x n p',
      length fuel x p = Some (Ok (n, p')) ->
      p' = p /\
      exists l, chain p x l /\ NoDup l /\ (List.length l < fuel)%nat /\
                n = N.of_nat (List.length l)) /\
  (forall fuel x vs p',
      print_stack fuel x p = Some (Ok (vs, p')) ->
      p' = p /\
      exists l, chain p x l /\ NoDup l /\ (List.length l < fuel)%nat /\
                Forall2 (payload p) l vs).
Proof.
  intros Hv. split.
  - intros fuel x n p' H. unfold length, begin_ in H.
    destruct (length_loop fuel x (mk_iterator x) 0 p)
      as [[[n0 p0]| | |]|] eqn:E; try discriminate.
    simpl in H. injection H as <- <-.
    destruct (length_loop_sound p x Hv _ _ _ _ _ E)
      as (-> & l & Hl & Hfuel & Hn).
    split; [reflexivity|]. exists l.
    split; [assumption|]. split; [now apply chain_nodup in Hl|].
    split; [assumption|].
    rewrite Hn. destruct l as [|y l]; [reflexivity|].
    rewrite N.add_0_l. apply N.mod_small.
    now apply chain_length_small with p x.
  - intros fuel x vs p' H. unfold print_stack, begin_ in H.
    destruct (print_stack_loop fuel x (mk_iterator x) [] p)
      as [[[vs0 p0]| | |]|] eqn:E; try discriminate.
    simpl in H. injection H as <- <-.
    destruct (print_stack_loop_sound p x Hv _ _ _ _ _ E)
      as (-> & l & ws & Hl & Hfuel & Hws & ->).
    split; [reflexivity|]. exists l.
    split; [assumption|]. split; [now apply chain_nodup in Hl|].
    split; assumption.
Qed.

(** X11.  [reserve] moves no node.  A call above [max_size()] leaves
    by [length_error].  A call that returns has left every node and
    the free-list head as they were, so every handle denotes the node
    it denoted and the head invariant is kept; the capacity is then at
    least what was asked for and never less than before, and while the
    pool has fewer nodes than that, [emplace_back] appends without
    asking the allocator. *)
Theorem reserve_moves_no_node reserve_alloc p n :
  vec_ok p ->
  (max_size < n -> reserve reserve_alloc n p = Throw length_error) /\
  (forall u p',
      reserve reserve_alloc n p = Ok (u, p') ->
      vec_ok p' /\ n <= capacity p' /\ capacity p <= capacity p' /\
      free_nodes p' = free_nodes p /\
      (forall y, slot p' y = slot p y) /\
      (forall stacks fl, pool_inv p stacks fl -> pool_inv p' stacks fl) /\
      (forall nd, vec_size (pool p') < n ->
         exists p'', emplace_back nd p' = Ok (tt, p'') /\
                     capacity p'' = capacity p')).
Proof.
  intros Hv. split.
  - intros Hn. unfold reserve.
    destruct (N.ltb_spec max_size n); [reflexivity|lia].
  - intros u p' H.
    destruct (reserve_facts _ _ _ _ _ Hv H) as (Hv' & Hn & Hcap & Hf & He).
    assert (Hs : forall y, slot p' y = slot p y)
      by (intros y; unfold slot; now rewrite He).
    split; [exact Hv'|]. split; [exact Hn|]. split; [exact Hcap|].
    split; [exact Hf|]. split; [exact Hs|]. split.
    + intros stacks fl Hinv. now apply pool_inv_same_nodes with p.
    + intros nd Hsz. unfold emplace_back. cbv zeta.
      unfold capacity, vec_capacity in Hn.
      destruct (N.ltb_spec 0 (spare (pool p'))) as [Hsp|]; [|lia].
      eexists. split; [reflexivity|].
      unfold capacity, vec_capacity, vec_size. simpl.
      rewrite length_app. simpl. lia.
Qed.

(** X12.  A push does not check its head against the slot it
    allocates.  With the free list empty, a push on the handle one
    above the number of nodes appends the node, clears the flag of that
    very node and returns its handle: the node is its own successor and
    is not a head, so [length] and [print_stack] on it run without end
    and [pop] refuses it. *)
Theorem push_on_own_slot_makes_cycle p v u p1 :
  vec_ok p -> free_nodes p = 0 ->
  emplace_back (mk_node v (vec_size (pool p) + 1) true) p = Ok (u, p1) ->
  exists p',
    push_rvalue v (vec_size (pool p) + 1) p
      = Ok (vec_size (pool p) + 1, p') /\
    next (vec_size (pool p) + 1) p' = Ok (vec_size (pool p) + 1, p') /\
    pop (vec_size (pool p) + 1) p' = Throw NotStackHeadException /\
    forall fuel,
      length fuel (vec_size (pool p) + 1) p' = None /\
      print_stack fuel (vec_size (pool p) + 1) p' = None.
Proof.
  intros Hv Hf He. set (h := vec_size (pool p) + 1) in *.
  destruct (emplace_back_ok _ _ _ _ Hv He) as (Hv1 & Hf1 & Hsz1 & Hs1).
  assert (Hh1 : slot p1 h = Some (mk_node v h true))
    by (rewrite Hs1; fold h; now rewrite N.eqb_refl).
  exists (store p1 h (mk_node v h false)).
  assert (Hh : slot (store p1 h (mk_node v h false)) h
               = Some (mk_node v h false)).
  { rewrite slot_store by (rewrite Hh1; discriminate).
    now rewrite N.eqb_refl. }
  assert (Hh0 : h <> 0) by (unfold h; lia).
  split; [|split; [|split]].
  - unfold push_rvalue, _push.
    change (is_same (deduce_forwarding false xvalue) value_type) with true.
    change (negb true) with false. cbv iota.
    rewrite (bind_step _ _ p (free_nodes p) p eq_refl).
    rewrite (bind_step _ _ p (empty p (free_nodes p)) p eq_refl).
    unfold empty, end_. rewrite Hf.
    change (negb (0 =? 0)) with false. cbv iota.
    rewrite (bind_step _ _ _ _ _ He).
    unfold set_isHead.
    rewrite (bind_step _ _ _ _ _ (node_store_slot _ _ _ _ Hh1)).
    cbn [node_value node_next]. unfold pool_size, const_call.
    rewrite store_size, Hsz1. reflexivity.
  - now rewrite (next_slot _ _ _ Hh).
  - now apply pop_not_head with (mk_node v h false).
  - intros fuel. unfold length, print_stack, begin_.
    rewrite (length_loop_self _ h h _ Hh eq_refl).
    rewrite (print_stack_loop_self _ h h _ Hh eq_refl).
    split; reflexivity.
Qed.

(** X13.  On a live stack, a pop followed by a push of an rvalue on
    the handle the pop returned gives the popped handle back as head:
    the stack has the handles it had, its head now holds the pushed
    value, the nodes below keep their values, the free list is what it
    was, the vector has not grown and the head invariant holds. *)
Theorem pop_then_push_on_live_stack p s1 x rest s2 fl t p1 v :
  pool_inv p (s1 ++ (x :: rest) :: s2) fl ->
  pop x p = Ok (t, p1) ->
  exists p2,
    push_rvalue v t p1 = Ok (x, p2) /\
    pool_inv p2 (s1 ++ (x :: rest) :: s2) fl /\
    payload p2 x v /\
    vec_size (pool p2) = vec_size (pool p) /\
    forall vs, Forall2 (payload p) rest vs -> Forall2 (payload p2) rest vs.
Proof.
  intros Hinv Hpop.
  pose proof (inv_vec _ _ _ Hinv) as Hv.
  destruct (pop_keeps_inv _ _ _ _ _ _ _ _ Hinv Hpop)
    as (rest' & -> & Hinv1).
  pose proof (inv_vec _ _ _ Hinv1) as Hv1.
  destruct (pop_spec _ _ _ _ Hv Hpop)
    as (nx & nt & _ & _ & _ & _ & _ & _ & Hf1 & Hsz1 & Hs1).
  assert (Hx1 : slot p1 (free_nodes p1) <> None).
  { rewrite Hf1, Hs1, N.eqb_refl. discriminate. }
  assert (Ht1 : slot p1 t <> None).
  { pose proof (inv_stacks _ _ _ Hinv1) as Hst.
    apply Forall_app in Hst as [_ Hst].
    apply Forall_cons_iff in Hst as [(_ & (n & Hn & _) & _) _].
    rewrite Hn. discriminate. }
  destruct (push_reuse_runs v t p1 Hx1 Ht1) as (p2 & Hpush & Hsz2).
  rewrite Hf1 in Hpush.
  exists p2. split; [exact Hpush|].
  pose proof (push_keeps_inv _ _ _ _ _ _ _ _ _ _ Hinv1 Hpush) as Hinv2.
  simpl tl in Hinv2. split; [exact Hinv2|].
  destruct (push_written _ _ _ _ _ _ Hv1 Hpush)
    as (_ & (n & Hn & Hval & _) & _).
  split; [exists n; split; assumption|].
  split; [congruence|].
  intros vs Hvs.
  pose proof (inv_disjoint _ _ _ Hinv) as Hnd.
  apply (Permutation_NoDup (focus_perm _ _ _ _)) in Hnd. simpl in Hnd.
  assert (Hne : forall y, In y (t :: rest') -> y <> x).
  { intros y Hy ->. inversion Hnd as [|? ? Hnot _]; subst.
    apply Hnot. destruct Hy as [E|Hy]; [left; exact E|right].
    apply in_app_iff. now left. }
  apply payload_agree with p; [|assumption].
  intros y Hy. specialize (Hne y Hy).
  rewrite (proj1 (push_other_nodes _ _ _ _ _ _ Hv1 Hpush y Hne)).
  apply (pop_other_nodes _ _ _ _ Hv Hpop y Hne).
Qed.

(** X14.  Last in, first out.  When the loop [s1 = push(v, s1)] runs
    over the values [vals] on the head of a live stack and returns
    [t], the head invariant holds, the stack from [t] consists of one
    new node per value on top of the nodes it had, and the traversal
    from [t] returns the length grown by the number of values and
    writes the values in reverse order of insertion, followed by the
    values the stack had. *)
Theorem pushes_on_live_stack X vals p s1 h rest s2 fl t p' vs fuel :
  pool_inv p (s1 ++ (h :: rest) :: s2) fl ->
  Forall2 (payload p) (h :: rest) vs ->
  (List.length vals + List.length (h :: rest) < fuel)%nat ->
  push_all X vals h p = Ok (t, p') ->
  exists new fl',
    pool_inv p' (s1 ++ (new ++ h :: rest) :: s2) fl' /\
    List.length new = List.length vals /\
    returned (length fuel t p') =
      Some (N.of_nat (List.length vals + List.length (h :: rest))) /\
    returned (print_stack fuel t p') = Some (rev vals ++ vs).
Proof.
  intros Hinv Hvs Hfuel H.
  destruct (push_all_live _ _ _ _ _ _ _ _ _ _ Hinv H)
    as (new & fl' & Hinv' & Hhd & Hnew & Hkeep).
  exists new, fl'. split; [exact Hinv'|].
  assert (Hlen : List.length new = List.length vals).
  { apply Forall2_length in Hnew. now rewrite length_rev in Hnew. }
  split; [exact Hlen|].
  assert (Hc : chain p' t (new ++ h :: rest)).
  { pose proof (inv_stacks _ _ _ Hinv') as Hst.
    apply Forall_app in Hst as [_ Hst].
    apply Forall_cons_iff in Hst as [Hlive _].
    destruct (new ++ h :: rest) as [|t0 l] eqn:E; [discriminate|].
    injection Hhd as ->. destruct Hlive as (Hc & _). exact Hc. }
  assert (Hall : Forall2 (payload p') (new ++ h :: rest) (rev vals ++ vs)).
  { apply Forall2_app; [exact Hnew|].
    now apply payload_pointwise with p. }
  assert (Hl : List.length (new ++ h :: rest)
               = (List.length vals + List.length (h :: rest))%nat)
    by (rewrite length_app; lia).
  pose proof (inv_vec _ _ _ Hinv') as Hv'.
  pose proof (chain_length_small _ _ _ Hv' Hc) as Hsmall.
  rewrite (length_chain p' t _ fuel Hc Hsmall) by lia.
  rewrite (print_stack_chain p' t _ _ fuel Hc Hall) by lia.
  simpl returned. rewrite Hl. split; reflexivity.
Qed.

(** X15.  A newly constructed pool.  [stack_pool(n)] leaves by
    [length_error] when [n] exceeds [max_size()], and [stack_pool(0)]
    is the pool of the default constructor.  A pool it returns has at
    least the capacity asked for, an empty free list and no node; it
    satisfies the head invariant with no live stack, and the length of
    a new stack in it is 0. *)
Theorem new_pool_is_empty reserve_alloc n :
  (max_size < n -> stack_pool_n reserve_alloc n = Throw length_error) /\
  stack_pool_n reserve_alloc 0 = Ok stack_pool_default /\
  (forall p,
      stack_pool_n reserve_alloc n = Ok p ->
      pool_inv p [] [] /\ n <= capacity p /\ free_nodes p = 0 /\
      (forall y, slot p y = None) /\
      forall fuel, length (S fuel) (new_stack p) p = Some (Ok (0, p))).
Proof.
  assert (Hv0 : vec_ok stack_pool_default).
  { unfold vec_ok, capacity, vec_capacity, vec_size. simpl. lia. }
  assert (Hinv0 : pool_inv stack_pool_default [] []).
  { split; [exact Hv0|constructor| |constructor].
    split; constructor. }
  assert (Hs0 : forall y, slot stack_pool_default y = None).
  { intros y. unfold slot. destruct (y =? 0); reflexivity. }
  split; [|split].
  - intros Hn. unfold stack_pool_n, reserve.
    destruct (N.ltb_spec max_size n); [reflexivity|lia].
  - unfold stack_pool_n, reserve.
    destruct (N.ltb_spec max_size 0); [lia|]. reflexivity.
  - intros p Hp. unfold stack_pool_n in Hp.
    destruct (reserve reserve_alloc n stack_pool_default)
      as [[u p0]| | |] eqn:E; try discriminate.
    injection Hp as ->.
    destruct (reserve_facts _ _ _ _ _ Hv0 E) as (Hv' & Hn & _ & Hf & He).
    assert (Hs : forall y, slot p y = slot stack_pool_default y)
      by (intros y; unfold slot; now rewrite He).
    split; [now apply pool_inv_same_nodes with stack_pool_default|].
    split; [exact Hn|]. split; [exact Hf|].
    split; [intros y; now rewrite Hs|].
    intros fuel. reflexivity.
Qed.

(** X16.  Reuse of the free list on node heads.  When the free list
    is not empty, a push that returns has returned the free-list head
    and has left the number of nodes of the vector unchanged; a push
    of an rvalue on a head that is a node does return.  After a pop that freed
    [f], [f] is the free-list head, and the next push on any node
    handle, such as the handle the pop returned, returns [f] without
    growing the vector. *)
Theorem free_slot_is_reused :
  (forall p X v h t p',
      vec_ok p -> free_nodes p <> 0 -> _push X v h p = Ok (t, p') ->
      t = free_nodes p /\ vec_size (pool p') = vec_size (pool p)) /\
  (forall p v h,
      slot p (free_nodes p) <> None -> slot p h <> None ->
      exists p', push_rvalue v h p = Ok (free_nodes p, p') /\
                 vec_size (pool p') = vec_size (pool p)) /\
  (forall p0 f t0 p,
      vec_ok p0 -> pop f p0 = Ok (t0, p) ->
      free_nodes p = f /\ f <> 0 /\ slot p t0 <> None /\
      forall v h, slot p h <> None ->
        exists p', push_rvalue v h p = Ok (f, p') /\
                   vec_size (pool p') = vec_size (pool p)).
Proof.
  split; [|split].
  - intros p X v h t p' Hv Hf H.
    destruct (push_reuse_spec _ _ _ _ _ _ Hv Hf H)
      as (nf & nh & _ & -> & _ & _ & _ & Hsz & _).
    split; [reflexivity|assumption].
  - intros p v h Hf Hh. now apply push_reuse_runs.
  - intros p0 f t0 p Hv H.
    destruct (pop_spec _ _ _ _ Hv H)
      as (nx & nt & Hnx & _ & -> & _ & _ & _ & Hf & _ & Hs).
    pose proof (slot_nonzero _ _ _ Hnx) as Hf0.
    assert (Hsf : slot p f <> None)
      by (rewrite Hs, N.eqb_refl; discriminate).
    split; [assumption|]. split; [assumption|]. split.
    + rewrite Hs. destruct (node_next nx =? f); [discriminate|].
      rewrite N.eqb_refl. discriminate.
    + intros v h Hh. rewrite <- Hf.
      apply push_reuse_runs; [now rewrite Hf|assumption].
Qed.

End StackPool.

(** * The properties at the sample pools of [stack_pool<int>] *)

Local Abbreviation sz := sizeof_int_node.

Ltac solve_vec_ok := vm_compute; discriminate.

Ltac solve_chain :=
  repeat (eapply chain_link; [reflexivity|simpl]); apply chain_end.

Ltac solve_flag := eexists; split; reflexivity.

Ltac solve_flags := repeat (constructor; [solve_flag|]); constructor.

Ltac solve_live_stack := split; [solve_chain|split; [solve_flag|solve_flags]].

Ltac solve_nodup :=
  repeat (constructor; [simpl; intuition discriminate|]); constructor.

Ltac solve_pool_inv :=
  split;
  [ solve_vec_ok
  | repeat (constructor; [solve_live_stack|]); constructor
  | split; [solve_chain|solve_flags]
  | solve_nodup ].

(** [max_size()] of the vector of [stack_pool<int>]. *)
Example max_size_int : max_size sz = 384307168202282325.
Proof. reflexivity. Qed.

(** The pool [one_stack] after [pop(2)]. *)
Example pop_one_stack :
  pop (-1)%Z 2 one_stack =
  Ok (1, mk_pool (mk_vector [mk_node 10%Z 0 true; mk_node (-1)%Z 0 false] 3) 2).
Proof. reflexivity. Qed.

(** The driver: [pool.push(i, s1)] with the lvalue [i] on the new stack. *)
Example driver_first_push :
  push_lvalue sz libstdcxx_grow 0%Z (new_stack pool_1000) pool_1000 =
  Throw NotEqualTypeException.
Proof. reflexivity. Qed.

(** The example of the header: [pool.push(1, s1)] on the new stack. *)
Example header_first_push :
  push_rvalue sz libstdcxx_grow 1%Z (new_stack pool_5) pool_5 = OutOfBounds.
Proof. reflexivity. Qed.

(** An rvalue push on a head that no vector slot backs. *)
Example push_on_unknown_head :
  push_rvalue sz libstdcxx_grow 1%Z 1000 pool_5 = Throw RangeCheckingException.
Proof. reflexivity. Qed.

Example value_of_handles :
  value 0 pool_5 = OutOfBounds /\
  value 3 pool_5 = OutOfBounds /\
  value 6 pool_5 = Throw RangeCheckingException /\
  value 2 one_stack = Ok (20%Z, one_stack) /\
  value 3 one_stack = OutOfBounds.
Proof. repeat split; reflexivity. Qed.

Example free_stack_one_node :
  free_stack (-1)%Z 10 1 one_node = Some OutOfBounds.
Proof. reflexivity. Qed.

Example free_stack_one_stack :
  free_stack (-1)%Z 10 2 one_stack = Some OutOfBounds.
Proof. reflexivity. Qed.

Example length_one_stack :
  length 10 2 one_stack = Some (Ok (2, one_stack)) /\
  print_stack 10 2 one_stack = Some (Ok ([20%Z; 10%Z], one_stack)).
Proof. split; reflexivity. Qed.

Lemma pop_of_sentinel_witness :
  vec_ok sz pool_5 /\
  pop (-1)%Z (end_ pool_5) pool_5 = OutOfBounds /\
  pop (-1)%Z (end_ pool_5) pool_5 <> Throw EmptyStackException.
Proof.
  assert (Hv : vec_ok sz pool_5) by solve_vec_ok.
  split; [exact Hv|].
  exact (pop_of_sentinel_indexes_out_of_bounds sz (-1)%Z pool_5 Hv).
Defined.

Lemma accessors_skip_range_error_witness :
  (value 0 pool_5 = OutOfBounds /\ next 0 pool_5 = OutOfBounds /\
   isHead 0 pool_5 = OutOfBounds) /\
  (value 3 pool_5 = OutOfBounds /\ next 3 pool_5 = OutOfBounds /\
   isHead 3 pool_5 = OutOfBounds).
Proof.
  split.
  - apply (accessors_skip_range_error sz pool_5 0); [solve_vec_ok|].
    left. reflexivity.
  - apply (accessors_skip_range_error sz pool_5 3); [solve_vec_ok|].
    right. vm_compute. split; [reflexivity|discriminate].
Defined.

Lemma sentinel_is_used_as_index_witness :
  push_rvalue sz libstdcxx_grow 30%Z (new_stack two_stacks) two_stacks
    = OutOfBounds /\
  push_rvalue sz libstdcxx_grow 10%Z (new_stack pool_5) pool_5 = OutOfBounds /\
  pop (-1)%Z 1 one_node = OutOfBounds.
Proof.
  split; [|split].
  - apply (sentinel_is_used_as_index sz (-1)%Z libstdcxx_grow two_stacks);
      [solve_vec_ok|]. vm_compute. discriminate.
  - eapply (sentinel_is_used_as_index sz (-1)%Z libstdcxx_grow pool_5);
      [solve_vec_ok|reflexivity|reflexivity].
  - eapply (sentinel_is_used_as_index sz (-1)%Z libstdcxx_grow one_node);
      [solve_vec_ok|reflexivity|reflexivity|reflexivity].
Defined.

Lemma head_invariant_witness :
  pool_inv sz two_stacks [[2; 1]; [4]] [3] /\
  (exists p', push_rvalue sz libstdcxx_grow 30%Z 2 two_stacks = Ok (3, p') /\
              pool_inv sz p' [[3; 2; 1]; [4]] []) /\
  (exists p', pop (-1)%Z 2 two_stacks = Ok (1, p') /\
              pool_inv sz p' [[1]; [4]] [2; 3]).
Proof.
  assert (Hinv : pool_inv sz two_stacks ([] ++ (2 :: [1]) :: [[4]]) [3])
    by solve_pool_inv.
  destruct (head_invariant_kept sz (-1)%Z libstdcxx_grow
              two_stacks [] 2 [1] [[4]] [3] Hinv) as [Hpush Hpop].
  split; [exact Hinv|]. split.
  - exists (mk_pool (mk_vector [mk_node 10%Z 0 false; mk_node 20%Z 1 false;
                                mk_node 30%Z 2 true; mk_node 40%Z 0 true] 1)
                    0).
    split; [reflexivity|].
    apply (Hpush value_type 30%Z). reflexivity.
  - exists (mk_pool (mk_vector [mk_node 10%Z 0 true; mk_node (-1)%Z 3 false;
                                mk_node (-1)%Z 0 false; mk_node 40%Z 0 true] 1)
                    2).
    split; [reflexivity|].
    destruct (Hpop 1 _ eq_refl) as (rest' & E & H).
    injection E as <-. exact H.
Defined.

Lemma pushes_on_new_stack_witness :
  vec_ok sz pool_5 /\
  push_all sz libstdcxx_grow value_type [10%Z; 20%Z] (new_stack pool_5) pool_5
    <> Ok (2, one_stack) /\
  push_all sz libstdcxx_grow value_type [] (new_stack pool_5) pool_5
    = Ok (0, pool_5).
Proof.
  assert (Hv : vec_ok sz pool_5) by solve_vec_ok.
  split; [exact Hv|]. split.
  - apply (pushes_on_new_stack_fail sz libstdcxx_grow value_type
             [10%Z; 20%Z] pool_5 Hv).
    discriminate.
  - apply (pushes_on_new_stack_fail sz libstdcxx_grow value_type [] pool_5 Hv).
    reflexivity.
Defined.

Lemma push_then_pop_on_sentinel_witness :
  vec_ok sz pool_5 /\
  bind (_push sz libstdcxx_grow value_type 10%Z (end_ pool_5)) (pop (-1)%Z)
       pool_5
    <> Ok (0, mk_pool (mk_vector [mk_node (-1)%Z 0 false] 4) 1).
Proof.
  assert (Hv : vec_ok sz pool_5) by solve_vec_ok.
  split; [exact Hv|].
  exact (push_then_pop_on_sentinel_fails sz (-1)%Z libstdcxx_grow value_type
           10%Z pool_5 _ Hv).
Defined.

Lemma free_slot_not_reused_witness :
  (vec_ok sz two_stacks /\
   push_rvalue sz libstdcxx_grow 30%Z (new_stack two_stacks)
               two_stacks = OutOfBounds /\
   push_lvalue sz libstdcxx_grow 30%Z 2 two_stacks
     = Throw NotEqualTypeException) /\
  (pop (-1)%Z 2 two_stacks = Ok (1, two_stacks_popped) /\
   free_nodes two_stacks_popped = 2 /\
   push_rvalue sz libstdcxx_grow 30%Z
               (new_stack two_stacks_popped) two_stacks_popped
     = OutOfBounds).
Proof.
  assert (Hv : vec_ok sz two_stacks) by solve_vec_ok.
  assert (Hf : slot two_stacks (free_nodes two_stacks) <> None)
    by (vm_compute; discriminate).
  assert (Hpop : pop (-1)%Z 2 two_stacks = Ok (1, two_stacks_popped))
    by reflexivity.
  destruct (free_slot_not_reused_on_new_stack sz (-1)%Z
              libstdcxx_grow) as [H1 H2].
  split.
  - destruct (H1 two_stacks 30%Z Hv Hf) as (Hr & _ & Hl).
    split; [exact Hv|]. split; [exact Hr|exact (Hl 2)].
  - destruct (H2 two_stacks 2 1 two_stacks_popped 30%Z Hv Hpop)
      as (Hfree & _ & Hr & _).
    split; [exact Hpop|]. split; [exact Hfree|exact Hr].
Defined.

Lemma free_stack_never_returns_witness :
  vec_ok sz one_stack /\ 2 <> end_ one_stack /\
  free_stack (-1)%Z 10 2 one_stack
    <> Some (Ok (0, mk_pool (mk_vector [mk_node (-1)%Z 2 false;
                                        mk_node (-1)%Z 0 false] 3) 1)).
Proof.
  assert (Hv : vec_ok sz one_stack) by solve_vec_ok.
  assert (Hx : 2 <> end_ one_stack) by discriminate.
  split; [exact Hv|]. split; [exact Hx|].
  exact (free_stack_never_returns sz (-1)%Z 10 2 one_stack _ Hv Hx).
Defined.

Lemma empty_iff_sentinel_witness :
  empty pool_5 0 = true /\ empty two_stacks 3 = false /\
  empty pool_5 1000 = false.
Proof.
  split; [|split].
  - apply (empty_iff_sentinel pool_5 pool_5 0). reflexivity.
  - apply (empty_iff_sentinel two_stacks two_stacks 3). discriminate.
  - apply (empty_iff_sentinel pool_5 pool_5 1000). discriminate.
Defined.

Lemma accessors_in_range_witness :
  (value 2 one_stack = Ok (20%Z, one_stack) /\
   next 2 one_stack = Ok (1, one_stack) /\
   isHead 2 one_stack = Ok (true, one_stack)) /\
  (value 6 pool_5 = Throw RangeCheckingException /\
   next 6 pool_5 = Throw RangeCheckingException /\
   isHead 6 pool_5 = Throw RangeCheckingException).
Proof.
  split.
  - apply (proj1 (accessors_in_range one_stack 2) (mk_node 20%Z 1 true)).
    reflexivity.
  - apply (proj2 (accessors_in_range pool_5 6)). reflexivity.
Defined.

Lemma push_rvalue_exceptions_witness :
  push_rvalue sz libstdcxx_grow 1%Z 1000 pool_5 = Throw RangeCheckingException /\
  RangeCheckingException <> NotEqualTypeException.
Proof.
  assert (H : push_rvalue sz libstdcxx_grow 1%Z 1000 pool_5
              = Throw RangeCheckingException) by reflexivity.
  split; [exact H|].
  exact (proj1 (push_rvalue_exceptions sz libstdcxx_grow 1%Z 1000 pool_5
                  RangeCheckingException H)).
Defined.

Lemma traversal_of_chain_witness :
  chain one_stack 2 [2; 1] /\
  length 10 2 one_stack = Some (Ok (2, one_stack)) /\
  print_stack 10 2 one_stack = Some (Ok ([20%Z; 10%Z], one_stack)).
Proof.
  assert (Hc : chain one_stack 2 [2; 1]) by solve_chain.
  split; [exact Hc|].
  apply (traversal_of_chain one_stack 2 [2; 1] [20%Z; 10%Z] 10 Hc).
  - repeat (constructor; [solve_flag|]); constructor.
  - reflexivity.
  - simpl. lia.
Defined.

Lemma push_then_pop_on_live_stack_witness :
  exists p1 p2,
    push_rvalue sz libstdcxx_grow 30%Z 2 two_stacks = Ok (3, p1) /\
    pop (-1)%Z 3 p1 = Ok (2, p2) /\
    pool_inv sz p2 [[2; 1]; [4]] [3] /\
    returned (length 10 2 p2) = Some 2 /\
    returned (print_stack 10 2 p2) = Some [20%Z; 10%Z].
Proof.
  assert (Hinv : pool_inv sz two_stacks ([] ++ (2 :: [1]) :: [[4]]) [3])
    by solve_pool_inv.
  assert (Hvs : Forall2 (payload two_stacks) [2; 1] [20%Z; 10%Z])
    by (repeat (constructor; [solve_flag|]); constructor).
  assert (Hl : N.of_nat (List.length [2; 1]) < 2 ^ 64) by reflexivity.
  assert (Hfuel : (List.length [2; 1] < 10)%nat) by (simpl; lia).
  pose (p1 := mk_pool (mk_vector [mk_node 10%Z 0 false; mk_node 20%Z 1 false;
                                   mk_node 30%Z 2 true; mk_node 40%Z 0 true] 1)
                       0).
  assert (Hpush : _push sz libstdcxx_grow value_type 30%Z 2 two_stacks
                  = Ok (3, p1)) by reflexivity.
  destruct (push_then_pop_on_live_stack sz (-1)%Z libstdcxx_grow
              value_type 30%Z 2 two_stacks 3 p1 [] [1] [[4]] [3]
              [20%Z; 10%Z] 10 Hinv Hvs Hl Hfuel Hpush)
    as (p2 & Hpop & Hinv2 & _ & Hlen & _ & Hprint).
  exists p1, p2.
  split; [exact Hpush|]. split; [exact Hpop|]. split; [exact Hinv2|].
  split; [exact Hlen|exact Hprint].
Defined.

Lemma stale_heads_are_rejected_witness :
  (pop (-1)%Z 2 two_stacks = Ok (1, two_stacks_popped) /\
   pop (-1)%Z 2 two_stacks_popped = Throw NotStackHeadException /\
   free_stack (-1)%Z 5 2 two_stacks_popped
     = Some (Throw NotStackHeadException)) /\
  (push_rvalue sz libstdcxx_grow 30%Z 2 two_stacks = Ok (3, two_stacks_pushed) /\
   pop (-1)%Z 2 two_stacks_pushed = Throw NotStackHeadException /\
   free_stack (-1)%Z 5 2 two_stacks_pushed
     = Some (Throw NotStackHeadException)).
Proof.
  assert (Hv : vec_ok sz two_stacks) by solve_vec_ok.
  destruct (stale_heads_are_rejected sz (-1)%Z libstdcxx_grow two_stacks Hv)
    as [Hpop Hpush].
  assert (H1 : pop (-1)%Z 2 two_stacks = Ok (1, two_stacks_popped))
    by reflexivity.
  assert (H2 : _push sz libstdcxx_grow (deduce_forwarding false xvalue) 30%Z 2
                     two_stacks = Ok (3, two_stacks_pushed)) by reflexivity.
  split.
  - split; [exact H1|]. exact (Hpop 2 1 two_stacks_popped 4%nat H1).
  - split; [exact H2|].
    apply (Hpush _ 30%Z 2 3 two_stacks_pushed 4%nat H2). discriminate.
Defined.

Lemma handles_past_capacity_witness :
  capacity pool_5 < 6 /\
  pop (-1)%Z 6 pool_5 = Throw RangeCheckingException /\
  free_stack (-1)%Z 3 6 pool_5 = Some (Throw RangeCheckingException) /\
  length 3 6 pool_5 = Some Terminate /\
  print_stack 3 6 pool_5 = Some Terminate /\
  push_rvalue sz libstdcxx_grow 1%Z 6 pool_5 = Throw RangeCheckingException.
Proof.
  assert (Hc : capacity pool_5 < 6) by reflexivity.
  destruct (handles_past_capacity_are_rejected sz (-1)%Z libstdcxx_grow
              pool_5 6 Hc) as (Hpop & Hloops & Hpush).
  destruct (Hloops 2%nat) as (Hfree & Hlen & Hprint).
  split; [exact Hc|]. split; [exact Hpop|]. split; [exact Hfree|].
  split; [exact Hlen|]. split; [exact Hprint|].
  apply Hpush. right. split; reflexivity.
Defined.

Lemma push_and_pop_write_witness :
  (value 3 two_stacks_pushed = Ok (30%Z, two_stacks_pushed) /\
   next 3 two_stacks_pushed = Ok (2, two_stacks_pushed) /\
   isHead 3 two_stacks_pushed = Ok (true, two_stacks_pushed) /\
   isHead 2 two_stacks_pushed = Ok (false, two_stacks_pushed)) /\
  (value 2 two_stacks_popped = Ok ((-1)%Z, two_stacks_popped) /\
   next 2 two_stacks_popped = Ok (3, two_stacks_popped) /\
   isHead 2 two_stacks_popped = Ok (false, two_stacks_popped) /\
   isHead 1 two_stacks_popped = Ok (true, two_stacks_popped)).
Proof.
  assert (Hv : vec_ok sz two_stacks) by solve_vec_ok.
  destruct (push_and_pop_write sz (-1)%Z libstdcxx_grow two_stacks Hv)
    as [Hpush Hpop].
  split.
  - destruct (Hpush (deduce_forwarding false xvalue) 30%Z 2 3
                    two_stacks_pushed eq_refl) as (_ & Hval & Hnx & Hflags).
    destruct Hflags as [Ht Hh]; [discriminate|].
    split; [exact Hval|]. split; [exact Hnx|]. split; [exact Ht|exact Hh].
  - destruct (Hpop 2 1 two_stacks_popped eq_refl)
      as (Hval & Hnx & Hflag & _ & Ht).
    split; [exact Hval|]. split; [exact Hnx|]. split; [exact Hflag|].
    apply Ht. discriminate.
Defined.

Lemma other_stacks_untouched_witness :
  (slot two_stacks_pushed 1 = slot two_stacks 1 /\
   slot two_stacks_pushed 4 = slot two_stacks 4) /\
  (slot two_stacks_popped 4 = slot two_stacks 4 /\
   slot two_stacks_popped 3 = slot two_stacks 3).
Proof.
  assert (Hinv : pool_inv sz two_stacks ([] ++ (2 :: [1]) :: [[4]]) [3])
    by solve_pool_inv.
  destruct (other_stacks_untouched sz (-1)%Z libstdcxx_grow
              two_stacks [] 2 [1] [[4]] [3] Hinv) as [Hpush Hpop].
  split.
  - pose proof (Hpush (deduce_forwarding false xvalue) 30%Z 3
                      two_stacks_pushed eq_refl) as H.
    split; apply H; simpl; tauto.
  - pose proof (Hpop 1 two_stacks_popped eq_refl) as H.
    split; apply H; simpl; tauto.
Defined.

Lemma storage_only_grows_witness :
  (vec_size (pool two_stacks_pushed) = 4 /\
   vec_size (pool two_stacks_popped) = 4) /\
  exists p',
    push_rvalue sz libstdcxx_grow 30%Z 2 one_stack = Ok (3, p') /\
    vec_size (pool p') = 3.
Proof.
  assert (Hv : vec_ok sz two_stacks) by solve_vec_ok.
  assert (Hv1 : vec_ok sz one_stack) by solve_vec_ok.
  destruct (storage_only_grows sz (-1)%Z libstdcxx_grow two_stacks Hv)
    as [Hpush Hpop].
  destruct (storage_only_grows sz (-1)%Z libstdcxx_grow one_stack Hv1)
    as [Hpush1 _].
  split.
  - split.
    + exact (proj1 (proj2 (Hpush (deduce_forwarding false xvalue) 30%Z 2 3
                                 two_stacks_pushed eq_refl))).
    + exact (proj1 (proj2 (Hpop 2 1 two_stacks_popped eq_refl))).
  - eexists. split; [reflexivity|].
    exact (proj1 (proj2 (Hpush1 (deduce_forwarding false xvalue) 30%Z 2 3
                                _ eq_refl))).
Defined.

Lemma traversal_returns_only_on_chain_witness :
  vec_ok sz one_stack /\
  exists l, chain one_stack 2 l /\ NoDup l /\ 2 = N.of_nat (List.length l).
Proof.
  assert (Hv : vec_ok sz one_stack) by solve_vec_ok.
  split; [exact Hv|].
  destruct (proj1 (traversal_returns_only_on_chain sz one_stack Hv)
                  10%nat 2 2 one_stack eq_refl)
    as (_ & l & Hc & Hnd & _ & Hn).
  exists l. split; [exact Hc|]. split; [exact Hnd|exact Hn].
Defined.

Lemma reserve_moves_no_node_witness :
  reserve sz exact_alloc 4611686018427387904 two_stacks
    = Throw length_error /\
  exists p',
    reserve sz exact_alloc 10 two_stacks = Ok (tt, p') /\
    capacity p' = 10 /\
    pool_inv sz p' [[2; 1]; [4]] [3] /\
    (forall y, slot p' y = slot two_stacks y).
Proof.
  split.
  { apply (reserve_moves_no_node sz libstdcxx_grow exact_alloc
             two_stacks 4611686018427387904); [solve_vec_ok|reflexivity]. }
  assert (Hinv : pool_inv sz two_stacks [[2; 1]; [4]] [3]) by solve_pool_inv.
  pose proof (inv_vec _ _ _ _ Hinv) as Hv.
  eexists. split; [reflexivity|].
  destruct (proj2 (reserve_moves_no_node sz libstdcxx_grow exact_alloc
                     two_stacks 10 Hv) tt _ eq_refl)
    as (_ & _ & _ & _ & Hs & Hkeep & _).
  split; [reflexivity|]. split; [exact (Hkeep _ _ Hinv)|exact Hs].
Defined.

Lemma push_on_own_slot_witness :
  exists p',
    push_rvalue sz libstdcxx_grow 7%Z 1 pool_5 = Ok (1, p') /\
    next 1 p' = Ok (1, p') /\
    length 100 1 p' = None.
Proof.
  assert (Hv : vec_ok sz pool_5) by solve_vec_ok.
  destruct (push_on_own_slot_makes_cycle sz (-1)%Z libstdcxx_grow pool_5 7%Z
              tt _ Hv eq_refl eq_refl) as (p' & Hpush & Hnext & _ & Hloop).
  exists p'. split; [exact Hpush|]. split; [exact Hnext|].
  exact (proj1 (Hloop 100%nat)).
Defined.

Lemma pop_then_push_witness :
  exists p2,
    push_rvalue sz libstdcxx_grow 99%Z 1 two_stacks_popped = Ok (2, p2) /\
    pool_inv sz p2 [[2; 1]; [4]] [3] /\
    payload p2 2 99%Z /\ payload p2 1 10%Z.
Proof.
  assert (Hinv : pool_inv sz two_stacks ([] ++ (2 :: [1]) :: [[4]]) [3])
    by solve_pool_inv.
  assert (Hpop : pop (-1)%Z 2 two_stacks = Ok (1, two_stacks_popped))
    by reflexivity.
  destruct (pop_then_push_on_live_stack sz (-1)%Z libstdcxx_grow two_stacks
              [] 2 [1] [[4]] [3] 1 two_stacks_popped 99%Z Hinv Hpop)
    as (p2 & Hpush & Hinv2 & Hhead & _ & Hrest).
  exists p2. split; [exact Hpush|]. split; [exact Hinv2|].
  split; [exact Hhead|].
  assert (Hvs : Forall2 (payload two_stacks) [1] [10%Z])
    by (repeat (constructor; [solve_flag|]); constructor).
  apply Hrest in Hvs. inversion Hvs; subst. assumption.
Defined.

Lemma pushes_on_live_stack_witness :
  exists p',
    push_all sz libstdcxx_grow value_type [30%Z; 50%Z] 2 two_stacks
      = Ok (5, p') /\
    returned (length 10 5 p') = Some 4 /\
    returned (print_stack 10 5 p') = Some [50%Z; 30%Z; 20%Z; 10%Z].
Proof.
  assert (Hinv : pool_inv sz two_stacks ([] ++ (2 :: [1]) :: [[4]]) [3])
    by solve_pool_inv.
  assert (Hvs : Forall2 (payload two_stacks) [2; 1] [20%Z; 10%Z])
    by (repeat (constructor; [solve_flag|]); constructor).
  assert (Hfuel : (List.length [30%Z; 50%Z] + List.length [2; 1] < 10)%nat)
    by (simpl; lia).
  pose (p' := mk_pool (mk_vector [mk_node 10%Z 0 false; mk_node 20%Z 1 false;
                                   mk_node 30%Z 2 false; mk_node 40%Z 0 true;
                                   mk_node 50%Z 3 true] 0) 0).
  assert (Hrun : push_all sz libstdcxx_grow value_type [30%Z; 50%Z] 2 two_stacks
                 = Ok (5, p')) by reflexivity.
  destruct (pushes_on_live_stack sz libstdcxx_grow value_type [30%Z; 50%Z]
              two_stacks [] 2 [1] [[4]] [3] 5 p' [20%Z; 10%Z] 10
              Hinv Hvs Hfuel Hrun) as (new & fl' & _ & _ & Hlen & Hprint).
  exists p'. split; [exact Hrun|]. split; [exact Hlen|exact Hprint].
Defined.

Lemma new_pool_is_empty_witness :
  stack_pool_n (T := Z) sz exact_alloc 9223372036854775807
    = Throw length_error /\
  exists p : stack_pool Z,
    stack_pool_n sz exact_alloc 5 = Ok p /\
    pool_inv sz p [] [] /\ capacity p = 5 /\
    length 1 (new_stack p) p = Some (Ok (0, p)).
Proof.
  split.
  { apply (new_pool_is_empty (T := Z) sz exact_alloc
             9223372036854775807). reflexivity. }
  exists pool_5. split; [reflexivity|].
  destruct (proj2 (proj2 (new_pool_is_empty (T := Z) sz exact_alloc 5))
                  pool_5 eq_refl) as (Hinv & _ & _ & _ & Hlen).
  split; [exact Hinv|]. split; [reflexivity|exact (Hlen 0%nat)].
Defined.

Lemma free_slot_is_reused_witness :
  (forall t p', push_rvalue sz libstdcxx_grow 30%Z 2 two_stacks = Ok (t, p') ->
                t = 3 /\ vec_size (pool p') = 4) /\
  (exists p', push_rvalue sz libstdcxx_grow 30%Z 2 two_stacks = Ok (3, p') /\
              vec_size (pool p') = 4) /\
  (exists p1 p', pop (-1)%Z 2 one_stack = Ok (1, p1) /\
                 push_rvalue sz libstdcxx_grow 30%Z 1 p1 = Ok (2, p') /\
                 vec_size (pool p') = 2).
Proof.
  destruct (free_slot_is_reused sz (-1)%Z libstdcxx_grow) as (H1 & H2 & H3).
  split; [|split].
  - intros t p' H.
    apply (H1 two_stacks (deduce_forwarding false xvalue) 30%Z 2 t p');
      [solve_vec_ok|discriminate|exact H].
  - apply (H2 two_stacks 30%Z 2); vm_compute; discriminate.
  - assert (Hv : vec_ok sz one_stack) by solve_vec_ok.
    destruct (H3 one_stack 2 1 _ Hv pop_one_stack) as (_ & _ & Ht & Hp).
    destruct (Hp 30%Z 1 Ht) as (p' & Hp' & Hsz).
    eexists. exists p'.
    split; [exact pop_one_stack|]. split; [exact Hp'|exact Hsz].
Defined.
